(** * docker-inspect: the inspection job pipeline of [src/server.js] and the
      tree filter of [DockerInspector.jsx], embedded and checked against the
      specification.

    Layout:
    - [PosixPath]  Node's [path.dirname] / [path.basename] and the depth key
    - [SizeFormatter] [formatSize]
    - [TreeBuilder] [buildFileTree]
    - [Server]     the Docker engine, the two Redis databases, [Worker] and
                   the four routes
    - [Frontend]   [filteredFiles] / [filterNodes] over a heap of node objects
    - [Client]     [toggleFolder], [pollJobStatus], [handleInspect] and
                   [fetchFileContent] against the server

    The properties follow the definitions, one module of lemmas per module
    of definitions.
*)

From Stdlib Require Import ZArith Lia Ascii.
From stdpp Require Import base option list gmap strings pretty sorting.

(* ================================================================== *)
(** ** Paths *)
(* ================================================================== *)

Module PosixPath.

Definition slash : ascii := "/"%char.

Definition is_slash (c : ascii) : bool := bool_decide (c = slash).

Definition chars (s : string) : list ascii := String.list_ascii_of_string s.
Definition text (l : list ascii) : string := String.string_of_list_ascii l.

(** [(p.match(/\//g) || []).length]: the number of separators in [p]. *)
Definition depth (p : string) : nat := length (filter (λ c, c = slash) (chars p)).

(** The backwards loop of [path.dirname]: [i] runs from the last index down
    to 1 over the characters in reverse, [matchedSlash] is cleared by the
    first character that is not a separator, and the loop breaks at the
    first separator seen after that. [None] is [end === -1]. *)
Fixpoint dirname_scan (rev_tail : list ascii) (i : nat) (matchedSlash : bool)
  : option nat :=
  match rev_tail with
  | [] => None
  | c :: rest =>
      if is_slash c then
        if matchedSlash then dirname_scan rest (pred i) matchedSlash
        else Some i
      else dirname_scan rest (pred i) false
  end.

(** [path.dirname] (posix flavour, the one the server container runs). *)
Definition dirname (p : string) : string :=
  match chars p with
  | [] => "."
  | c0 :: tl =>
      let hasRoot := is_slash c0 in
      match dirname_scan (reverse tl) (length tl) true with
      | None => if hasRoot then "/" else "."
      | Some e =>
          if hasRoot && bool_decide (e = 1) then "//"
          else text (take e (c0 :: tl))
      end
  end.

(** [path.basename] without an extension argument: trailing separators are
    skipped, then everything after the last remaining separator is kept. *)
Fixpoint take_until_slash (l : list ascii) : list ascii :=
  match l with
  | [] => []
  | c :: rest => if is_slash c then [] else c :: take_until_slash rest
  end.

Fixpoint drop_slashes (l : list ascii) : list ascii :=
  match l with
  | [] => []
  | c :: rest => if is_slash c then drop_slashes rest else l
  end.

Definition basename (p : string) : string :=
  text (reverse (take_until_slash (drop_slashes (reverse (chars p))))).

End PosixPath.

(* ================================================================== *)
(** ** The size formatter *)
(* ================================================================== *)

Module SizeFormatter.

Open Scope Z_scope.

Definition units : list string := ["B"; "KB"; "MB"; "GB"].

(** The [while] loop of [formatSize]. Dividing a double by 1024 is exact, so
    for an integral byte count the running value [formattedSize] is the
    rational [size / den] with [den = 1024 ^ unitIndex]; the loop state is
    kept as that denominator. The guard bounds the number of iterations by
    [length units - 1]; [fuel] is that bound. *)
Fixpoint while_loop (fuel : nat) (size den : Z) (unitIndex : nat) : Z * nat :=
  match fuel with
  | O => (den, unitIndex)
  | S fuel' =>
      if (1024 * den <=? size) && (unitIndex <? length units - 1)%nat
      then while_loop fuel' size (1024 * den) (S unitIndex)
      else (den, unitIndex)
  end.

(** [Number.prototype.toFixed(1)] of the non-negative rational [num / den]:
    the integer [n] with [n / 10] nearest to the value, the larger one on a
    tie, printed with one digit after the point. *)
Definition tenths (num den : Z) : Z := (20 * num + den) / (2 * den).

Definition show_tenths (n : Z) : string :=
  pretty (n / 10) +:+ "." +:+ pretty (n mod 10).

Definition toFixed1 (num den : Z) : string :=
  if num <? 0 then "-" +:+ show_tenths (tenths (- num) den)
  else show_tenths (tenths num den).

Definition formatSize (size : Z) : string :=
  let '(den, unitIndex) := while_loop (length units - 1) size 1 0 in
  toFixed1 size den +:+ default "undefined" (units !! unitIndex).

(** The specification's wording, for comparison: the unit is the first one
    of B, KB, MB, GB under which the value drops below 1024, GB at the
    latest. *)
Definition spec_unit (size : Z) : nat :=
  if size <? 1024 then 0
  else if size <? 1024 ^ 2 then 1
  else if size <? 1024 ^ 3 then 2
  else 3.


End SizeFormatter.

(* ================================================================== *)
(** ** Completions: a JavaScript call returns or throws *)
(* ================================================================== *)

Inductive completion (A : Type) : Type :=
  | Normal (a : A)
  | Throw (message : string).
Arguments Normal {A} a.
Arguments Throw {A} message.

(* ================================================================== *)
(** ** The tree builder *)
(* ================================================================== *)

Module TreeBuilder.

Import PosixPath.

Inductive FileType := File | Directory.

#[global] Instance FileType_eq_dec : EqDecision FileType.
Proof. solve_decision. Defined.

(** One element of the array produced by [extractTarStream]. *)
Record FileRecord := {
  file_name : string;
  file_path : string;
  file_size : Z;
  file_type : FileType;
  file_modified : string;
  file_content : string }.

(** A node object on the heap. [children] holds references (heap indices);
    it is absent on a node that is not a directory. *)
Record NodeObj := {
  name : string;
  path : string;
  size : string;
  type : FileType;
  modified : string;
  children : option (list nat) }.

(** The value read off the object graph, as [JSON.stringify] emits it. *)
#[warnings="-register-all"] Inductive FileNode :=
  Node (node_name node_path node_size : string) (node_type : FileType)
       (node_modified : string) (node_children : option (list FileNode)).

Definition node_name (n : FileNode) := let 'Node x _ _ _ _ _ := n in x.
Definition node_children (n : FileNode) := let 'Node _ _ _ _ _ c := n in c.

(** The state of the loop: the objects allocated so far (the reference of an
    object is its index; index 0 is [root]) and the own properties of
    [pathMap], the object literal used as a map from path to node. *)
Record BuildState := {
  objs : list NodeObj;
  pathMap : gmap string nat }.

(** [pathMap] is an object literal, so reading a property of it also finds
    what every object inherits from [Object.prototype]: a function under
    each of these names, the prototype object itself under [__proto__].
    Every one of these values is truthy and has no [children]. *)
Definition object_prototype : list string :=
  ["constructor"; "hasOwnProperty"; "isPrototypeOf"; "propertyIsEnumerable";
   "toLocaleString"; "toString"; "valueOf"; "__defineGetter__";
   "__defineSetter__"; "__lookupGetter__"; "__lookupSetter__"; "__proto__"].

(** What [pathMap[key]] evaluates to: a node the loop stored under [key],
    an inherited value, or [undefined] ([None]). *)
Inductive Property :=
  | Stored (ref : nat)
  | Inherited.

Definition pathMap_get (m : gmap string nat) (key : string) : option Property :=
  match m !! key with
  | Some ref => Some (Stored ref)
  | None => if decide (key ∈ object_prototype) then Some Inherited else None
  end.

(** [root]: its [size] is the number 0 and it has no [modified]; neither is
    ever read, only its [children] leave the function. *)
Definition root : NodeObj :=
  {| name := ""; path := "/"; size := "0"; type := Directory;
     modified := ""; children := Some [] |}.

Definition init : BuildState :=
  {| objs := [root]; pathMap := {[ "/" := 0 ]} |}.

(** [array.push(node)] on the [children] of the object at [parent]. *)
Definition push_child (parent node : nat) (os : list NodeObj)
  : completion (list NodeObj) :=
  match os !! parent with
  | Some o =>
      match children o with
      | Some cs =>
          Normal (<[parent := {| name := name o; path := path o; size := size o;
                                 type := type o; modified := modified o;
                                 children := Some (cs ++ [node]) |}]> os)
      | None => Throw "Cannot read properties of undefined (reading 'push')"
      end
  | None => Throw "Cannot read properties of undefined (reading 'children')"
  end.

(** The body of the [for] loop. Every value [pathMap[parentPath]] can hold
    is truthy, so the record is skipped exactly when the read gives
    [undefined]. The entry of [file.path] is written before
    [pathMap[parentPath]] is read again for the push, as in the source; an
    inherited value has no [children] to push on. The write makes an own
    property: the one key that would not, [__proto__], which the inherited
    setter takes, is never written, because a record at that path has the
    parent path "." and is skipped ([proto_record_is_skipped] below). *)
Definition step (st : BuildState) (file : FileRecord) : completion BuildState :=
  let parentPath := dirname (file_path file) in
  match pathMap_get (pathMap st) parentPath with
  | None => Normal st
  | Some _ =>
      let node := {| name := file_name file;
                     path := file_path file;
                     size := SizeFormatter.formatSize (file_size file);
                     type := file_type file;
                     modified := file_modified file;
                     children := if decide (file_type file = Directory)
                                 then Some [] else None |} in
      let ref := length (objs st) in
      let pathMap' := <[file_path file := ref]> (pathMap st) in
      match pathMap_get pathMap' parentPath with
      | Some (Stored parent) =>
          match push_child parent ref (objs st ++ [node]) with
          | Normal os => Normal {| objs := os; pathMap := pathMap' |}
          | Throw e => Throw e
          end
      | Some Inherited =>
          Throw "Cannot read properties of undefined (reading 'push')"
      | None => Throw "Cannot read properties of undefined (reading 'children')"
      end
  end.

Fixpoint loop (st : BuildState) (files : list FileRecord) : completion BuildState :=
  match files with
  | [] => Normal st
  | file :: rest =>
      match step st file with
      | Normal st' => loop st' rest
      | Throw e => Throw e
      end
  end.

(** [Array.prototype.sort] with the comparator [depth a - depth b]: the
    stable sort by depth. [insert_sorted] puts an element in front of the
    first one that is not shallower, so an element that came first in the
    input stays first among equals. *)
Fixpoint insert_sorted (x : FileRecord) (l : list FileRecord) : list FileRecord :=
  match l with
  | [] => [x]
  | y :: l' =>
      if decide (depth (file_path x) ≤ depth (file_path y))
      then x :: y :: l'
      else y :: insert_sorted x l'
  end.

Definition sort_by_depth (files : list FileRecord) : list FileRecord :=
  foldr insert_sorted [] files.

(** Reading the tree below each object. Objects are taken from the last
    allocated to the first, so the subtrees of the children a directory got
    after its own allocation are ready when it is reached. *)
Definition to_tree (o : NodeObj) (built : gmap nat FileNode) : FileNode :=
  Node (name o) (path o) (size o) (type o) (modified o)
       match children o with
       | Some cs => Some (omap (λ c : nat, built !! c) cs)
       | None => None
       end.

Fixpoint reify_from (i : nat) (os : list NodeObj) : gmap nat FileNode :=
  match os with
  | [] => ∅
  | o :: rest =>
      let built := reify_from (S i) rest in
      <[i := to_tree o built]> built
  end.

(** [root.children] as a value. *)
Definition root_children (st : BuildState) : list FileNode :=
  match reify_from 0 (objs st) !! 0 with
  | Some n => default [] (node_children n)
  | None => []
  end.

(** [buildFileTree(files)]. [files.sort] sorts the caller's array in place
    and returns that same array, so the first component is what the
    caller's array holds after the call; the second is the returned tree or
    the error thrown. *)
Definition buildFileTree (files : list FileRecord)
  : list FileRecord * completion (list FileNode) :=
  let sortedFiles := sort_by_depth files in
  (sortedFiles,
   match loop init sortedFiles with
   | Normal st => Normal (root_children st)
   | Throw e => Throw e
   end).

(** Records used in the examples. *)
Definition stamp : string := "2024-01-01T00:00:00.000Z".

Definition dir (p : string) : FileRecord :=
  {| file_name := basename p; file_path := p; file_size := 0;
     file_type := Directory; file_modified := stamp; file_content := "" |}.

Definition file (p : string) (bytes : Z) : FileRecord :=
  {| file_name := basename p; file_path := p; file_size := bytes;
     file_type := File; file_modified := stamp; file_content := "" |}.

(** [r] lies below the directory at [d]: its path continues [d] with a
    separator. *)
Definition below (r d : string) : Prop := ∃ rest, r = d +:+ "/" +:+ rest.



(** The node [step] builds for a record, with the children it ends up with. *)
Definition node_of (f : FileRecord) (cs : option (list FileNode)) : FileNode :=
  Node (file_name f) (file_path f) (SizeFormatter.formatSize (file_size f))
       (file_type f) (file_modified f) cs.

(** The tree expected for records [a], [b], [c] at [/a], [/a/b] and
    [/a/b/c.txt]. *)
Definition abc_tree (a b c : FileRecord) : list FileNode :=
  [node_of a (Some [node_of b (Some [node_of c None])])].

(** [p] starts at the root, the [hasRoot] of [dirname]. *)
Definition rooted (p : string) : bool :=
  match chars p with
  | c :: _ => is_slash c
  | [] => false
  end.

(** Every path stored in [pathMap] starts at the root and refers to an
    allocated object. *)
Definition stored_ok (st : BuildState) : Prop :=
  ∀ k ref, pathMap st !! k = Some ref → rooted k = true ∧ ref < length (objs st).

(** Some record of [files] has a parent path that names an inherited
    property. *)
Definition inherited_parent (files : list FileRecord) : Prop :=
  Exists (λ f, dirname (file_path f) ∈ object_prototype) files.

#[global] Instance inherited_parent_dec files : Decision (inherited_parent files).
Proof. unfold inherited_parent. apply _. Defined.

Definition node_path (n : FileNode) := let 'Node _ x _ _ _ _ := n in x.
Definition node_type (n : FileNode) := let 'Node _ _ _ x _ _ := n in x.

(** [P] holds of [n] and of every node below it. *)
Fixpoint all_nodes (P : FileNode → Prop) (n : FileNode) : Prop :=
  P n ∧
  match n with
  | Node _ _ _ _ _ (Some cs) =>
      (fix all (l : list FileNode) : Prop :=
         match l with
         | [] => True
         | c :: l' => all_nodes P c ∧ all l'
         end) cs
  | Node _ _ _ _ _ None => True
  end.

(** [n] carries the fields of one of the records [files], and a [children]
    array exactly when that record is a directory. *)
Definition built_from (files : list FileRecord) (n : FileNode) : Prop :=
  ∃ f cs, f ∈ files ∧ n = node_of f cs
          ∧ (is_Some cs ↔ file_type f = Directory).

(** The same of a node object. *)
Definition obj_from (files : list FileRecord) (o : NodeObj) : Prop :=
  ∃ f, f ∈ files
       ∧ name o = file_name f ∧ path o = file_path f
       ∧ size o = SizeFormatter.formatSize (file_size f)
       ∧ type o = file_type f ∧ modified o = file_modified f
       ∧ (is_Some (children o) ↔ file_type f = Directory).

(** [o'] is [o] up to its [children]. *)
Definition same_fields (o o' : NodeObj) : Prop :=
  name o' = name o ∧ path o' = path o ∧ size o' = size o
  ∧ type o' = type o ∧ modified o' = modified o.

(** The first object is the root with its array, every other object was
    built from one of the records [files]. *)
Definition objs_from (files : list FileRecord) (st : BuildState) : Prop :=
  ∃ o0 rest, objs st = o0 :: rest ∧ is_Some (children o0)
             ∧ Forall (obj_from files) rest.

(** The records that hang directly under the root. *)
Definition top_level (files : list FileRecord) : list FileRecord :=
  filter (λ f, dirname (file_path f) = "/") files.

(** [o] carries the fields [step] copies from [f]. *)
Definition fields_of (f : FileRecord) (o : NodeObj) : Prop :=
  name o = file_name f ∧ path o = file_path f
  ∧ size o = SizeFormatter.formatSize (file_size f)
  ∧ type o = file_type f ∧ modified o = file_modified f.

(** After the records [done], none of them at the path "/": "/" still
    names the root, no other path does, and the root's array lists, in
    order, the objects built for the records of [done] whose parent path
    is "/". *)
Definition top_inv (done : list FileRecord) (st : BuildState) : Prop :=
  pathMap st !! "/" = Some 0
  ∧ (∀ k, pathMap st !! k = Some 0 → k = "/")
  ∧ ∃ o0 cs, objs st !! 0 = Some o0 ∧ children o0 = Some cs
      ∧ Forall2 (λ id f, 0 < id ∧ ∃ o, objs st !! id = Some o ∧ fields_of f o)
          cs (top_level done).

End TreeBuilder.

(* ================================================================== *)
(** ** The server: engine, stores, worker and routes *)
(* ================================================================== *)

Module Server.

Import PosixPath TreeBuilder.

(** *** The Docker engine *)

(** What [image.inspect()] reports, as far as [processJob] reads it. *)
Record Inspect := {
  Created : string;
  Architecture : string;
  Os : string;
  Env : list string;
  ImageSize : Z;
  Layers : list string }.

(** An entry of a tar stream as tar-stream hands it to the ['entry']
    listener: the header and the concatenated data chunks. [mtime] is kept
    as the text [new Date(header.mtime).toISOString()] gives; an entry
    whose [mtime] is no valid date is where the stream ends [Uncaught]. *)
Record TarEntry := {
  header_name : string;
  header_size : Z;
  header_type : string;
  header_mtime : string;
  content : string }.

(** How a stream goes on once the ['end'] listeners of its [entries] have
    run. It ends with ['finish']; or the extractor emits ['error'] with
    some message (a block that is no header), which the promise of
    [extractTarStream] is subscribed to; or an error comes up where
    nothing handles it: an ['error'] event on the stream of an entry or on
    the piped source (the data stops inside the content of an entry),
    neither of which gets a listener, or an exception thrown inside the
    ['end'] listener ([toISOString] of an invalid date). *)
Inductive Ending :=
  | Finish
  | ExtractError (message : string)
  | Uncaught.

#[global] Instance Ending_eq_dec : EqDecision Ending.
Proof. solve_decision. Defined.

Record TarStream := {
  entries : list TarEntry;
  ending : Ending }.

(** The stream does not end with ['finish']. *)
Definition broken (tarStream : TarStream) : bool :=
  match ending tarStream with
  | Finish => false
  | ExtractError _ | Uncaught => true
  end.

(** An image the engine can pull: its metadata and, per path of its
    filesystem, the archive [getArchive] exports for it. *)
Record Image := {
  inspect : Inspect;
  archives : gmap string TarStream }.

Record Engine := {
  images : gmap string Image;
  containers : gmap nat string;
  created : nat }.

(** *** The two Redis databases *)

Record Db (V : Type) := {
  up : bool;
  data : gmap string V }.
Arguments up {V} _.
Arguments data {V} _.

(** The payload of [result]: [layers] and [config] are computed from
    [manifest] alone and are not repeated; the JSON text stored in Redis is
    kept as the value it encodes. *)
Record InspectionResult := {
  manifest : Inspect;
  files : list FileNode }.

(** A job hash [job:<id>]; a field that was never written is absent. *)
Record Job := {
  imageUrl : option string;
  jobId : option string;
  status : option string;
  result : option InspectionResult;
  error : option string }.

Definition no_fields : Job :=
  {| imageUrl := None; jobId := None; status := None; result := None;
     error := None |}.

(** [HSET]/[HMSET]: the fields given replace the old ones, the others stay. *)
Definition write_fields (new old : Job) : Job :=
  {| imageUrl := from_option Some (imageUrl old) (imageUrl new);
     jobId := from_option Some (jobId old) (jobId new);
     status := from_option Some (status old) (status new);
     result := from_option Some (result old) (result new);
     error := from_option Some (error old) (error new) |}.

(** *** Responses *)

Inductive Payload :=
  | JobCreated (job_id : string)
  | JobStatus (status : option string) (result : option InspectionResult)
              (error : option string)
  | Results (r : InspectionResult)
  | FileData (f : option FileRecord)
  | ErrorMessage (message : string).

Record Response := {
  code : nat;
  payload : Payload }.

(** *** The world and the monad of asynchronous code

    [statusLog] is the history of the values written to the [status] field
    of the job hashes, oldest first: the values a poller can observe for a
    job, in order. [res] is the response object of the request being
    served; the first payload sent is the response. [clock] counts seconds
    for the expiry of cache entries. [background] holds the calls of
    [processJob] that were started and not awaited, oldest first.

    An awaited call is fulfilled ([Some (Normal a)]) or rejected
    ([Some (Throw e)]), or it never settles ([None]): an ['error'] event
    that nothing is subscribed to is thrown out of the emitter as an
    uncaught exception, and the process exits with every call it was
    running. *)
Record JobData := {
  job_imageUrl : option string;
  job_jobId : string }.

Record World := {
  docker : Engine;
  redis : Db (nat * InspectionResult);
  jobQueue : Db Job;
  clock : nat;
  statusLog : list (string * string);
  res : option Response;
  background : list JobData }.

Definition M (A : Type) : Type := World → option (completion A) * World.

#[global] Instance M_ret : MRet M := λ A a w, (Some (Normal a), w).
#[global] Instance M_bind : MBind M := λ A B f m w,
  match m w with
  | (Some (Normal a), w') => f a w'
  | (Some (Throw e), w') => (Some (Throw e), w')
  | (None, w') => (None, w')
  end.

Definition throw {A} (e : string) : M A := λ w, (Some (Throw e), w).

(** The process exits: the call never settles. *)
Definition exit {A} : M A := λ w, (None, w).

(** [try { body } catch (error) { handler(error.message) }]; nothing is
    caught of a body that never settles. *)
Definition try_catch {A} (body : M A) (handler : string → M A) : M A := λ w,
  match body w with
  | (Some (Normal a), w') => (Some (Normal a), w')
  | (Some (Throw e), w') => handler e w'
  | (None, w') => (None, w')
  end.

(** [try { body } finally { cleanup }]: [cleanup] runs on both exits of a
    body that settles; when it throws, its error is the one that
    propagates. It does not run for a body that never settles. *)
Definition try_finally {A} (body : M A) (cleanup : M unit) : M A := λ w,
  match body w with
  | (Some r, w') =>
      match cleanup w' with
      | (Some (Normal _), w'') => (Some r, w'')
      | (Some (Throw e), w'') => (Some (Throw e), w'')
      | (None, w'') => (None, w'')
      end
  | (None, w') => (None, w')
  end.

Definition set_docker (d : Engine) (w : World) : World :=
  {| docker := d; redis := redis w; jobQueue := jobQueue w; clock := clock w;
     statusLog := statusLog w; res := res w; background := background w |}.
Definition set_redis (r : Db (nat * InspectionResult)) (w : World) : World :=
  {| docker := docker w; redis := r; jobQueue := jobQueue w; clock := clock w;
     statusLog := statusLog w; res := res w; background := background w |}.
Definition set_jobQueue (q : Db Job) (log : list (string * string)) (w : World)
  : World :=
  {| docker := docker w; redis := redis w; jobQueue := q; clock := clock w;
     statusLog := log; res := res w; background := background w |}.
Definition set_res (r : option Response) (w : World) : World :=
  {| docker := docker w; redis := redis w; jobQueue := jobQueue w;
     clock := clock w; statusLog := statusLog w; res := r;
     background := background w |}.
Definition set_background (b : list JobData) (w : World) : World :=
  {| docker := docker w; redis := redis w; jobQueue := jobQueue w;
     clock := clock w; statusLog := statusLog w; res := res w;
     background := b |}.
Definition set_clock (t : nat) (w : World) : World :=
  {| docker := docker w; redis := redis w; jobQueue := jobQueue w;
     clock := t; statusLog := statusLog w; res := res w;
     background := background w |}.

(** *** Engine operations *)

(** [docker.pull(name)]; a missing name is [undefined]. *)
Definition docker_pull (name : option string) : M unit := λ w,
  match name ≫= λ n, images (docker w) !! n with
  | Some _ => (Some (Normal ()), w)
  | None => (Some (Throw "pull access denied"), w)
  end.

(** [docker.getImage(name).inspect()] *)
Definition image_inspect (name : option string) : M Inspect := λ w,
  match name ≫= λ n, images (docker w) !! n with
  | Some img => (Some (Normal (inspect img)), w)
  | None => (Some (Throw "no such image"), w)
  end.

(** [docker.createContainer({ Image: name, Cmd: ['true'], Tty: true })]:
    the container is created, never started. *)
Definition createContainer (name : option string) : M nat := λ w,
  match name with
  | Some n =>
      match images (docker w) !! n with
      | Some _ =>
          let id := created (docker w) in
          (Some (Normal id),
           set_docker {| images := images (docker w);
                         containers := <[id := n]> (containers (docker w));
                         created := S id |} w)
      | None => (Some (Throw "no such image"), w)
      end
  | None => (Some (Throw "no such image"), w)
  end.

(** [container.getArchive({ path })]; a missing path is [undefined]. *)
Definition getArchive (container : nat) (p : option string) : M TarStream := λ w,
  match containers (docker w) !! container ≫= λ n, images (docker w) !! n with
  | Some img =>
      match p ≫= λ p, archives img !! p with
      | Some t => (Some (Normal t), w)
      | None => (Some (Throw "could not find the file in the container"), w)
      end
  | None => (Some (Throw "no such container"), w)
  end.

(** [container.remove()] *)
Definition container_remove (container : nat) : M unit := λ w,
  match containers (docker w) !! container with
  | Some _ =>
      (Some (Normal ()),
       set_docker {| images := images (docker w);
                     containers := delete container (containers (docker w));
                     created := created (docker w) |} w)
  | None => (Some (Throw "no such container"), w)
  end.

(** *** Store operations *)

Definition unreachable : string := "connect ECONNREFUSED".

(** [redis.setex(key, seconds, value)] *)
Definition redis_setex (key : string) (seconds : nat) (v : InspectionResult)
  : M unit := λ w,
  if up (redis w) then
    (Some (Normal ()),
     set_redis {| up := true;
                  data := <[key := (clock w + seconds, v)]> (data (redis w)) |} w)
  else (Some (Throw unreachable), w).

(** The value under [key] at time [now]: none once the entry has expired. *)
Definition live (now : nat) (db : Db (nat * InspectionResult)) (key : string)
  : option InspectionResult :=
  match data db !! key with
  | Some (expiry, v) => if decide (now < expiry) then Some v else None
  | None => None
  end.

(** [redis.get(key)]: [null] for a key that is absent or has expired. *)
Definition redis_get (key : string) : M (option InspectionResult) := λ w,
  if up (redis w) then (Some (Normal (live (clock w) (redis w) key)), w)
  else (Some (Throw unreachable), w).

(** [jobQueue.hset(key, fields)] and [jobQueue.hmset(key, fields)] *)
Definition jobQueue_hset (key : string) (fields : Job) : M unit := λ w,
  if up (jobQueue w) then
    (Some (Normal ()),
     set_jobQueue
       {| up := true;
          data := <[key := write_fields fields
                             (default no_fields (data (jobQueue w) !! key))]>
                    (data (jobQueue w)) |}
       (statusLog w ++ from_option (λ s, [(key, s)]) [] (status fields)) w)
  else (Some (Throw unreachable), w).

(** [jobQueue.hgetall(key)]: ioredis turns the reply into an object, the
    empty object [{}] for a key that does not exist. *)
Definition jobQueue_hgetall (key : string) : M Job := λ w,
  if up (jobQueue w) then
    (Some (Normal (default no_fields (data (jobQueue w) !! key))), w)
  else (Some (Throw unreachable), w).

(** Every object is truthy, the empty one included. *)
Definition truthy_object (o : Job) : bool := true.

(** A string is truthy unless it is empty; [undefined] is falsy. *)
Definition truthy_string (s : option string) : bool :=
  match s with
  | Some s => negb (bool_decide (s = ""))
  | None => false
  end.

(** [res.json(..)], [res.status(c).json(..)]: a second send on the same
    response throws. *)
Definition send (c : nat) (p : Payload) : M unit := λ w,
  match res w with
  | None => (Some (Normal ()), set_res (Some {| code := c; payload := p |}) w)
  | Some _ =>
      (Some (Throw "Cannot set headers after they are sent to the client"), w)
  end.

(** *** The worker *)

Definition to_record (e : TarEntry) : FileRecord :=
  {| file_name := basename (header_name e);
     file_path := header_name e;
     file_size := header_size e;
     file_type := if decide (header_type e = "directory") then Directory else File;
     file_modified := header_mtime e;
     file_content := content e |}.

(** The promise resolves on ['finish'] and rejects on the extractor's
    ['error']. Neither the entry streams nor [tarStream] get an ['error']
    listener, and nothing catches what the ['end'] listener throws: such
    an error reaches no handler of the promise, no [catch] and no
    [finally] of the callers. *)
Definition extractTarStream (tarStream : TarStream) : M (list FileRecord) :=
  match ending tarStream with
  | Finish => mret (to_record <$> entries tarStream)
  | ExtractError message => throw message
  | Uncaught => exit
  end.

Definition listFiles (container : nat) (p : string) : M (list FileNode) :=
  tarStream ← getArchive container (Some p);
  files ← extractTarStream tarStream;
  match (buildFileTree files).2 with
  | Normal tree => mret tree
  | Throw e => throw e
  end.

(** [files[0]] is [undefined] on an empty array. *)
Definition getFileContents (container : nat) (filePath : option string)
  : M (option FileRecord) :=
  tarStream ← getArchive container filePath;
  files ← extractTarStream tarStream;
  mret (head files).

Definition job_key (jobId : string) : string := "job:" +:+ jobId.
Definition result_key (jobId : string) : string := "result:" +:+ jobId.

Definition processJob (jobData : JobData) : M unit :=
  let imageUrl := job_imageUrl jobData in
  let jobId := job_jobId jobData in
  try_catch
    (docker_pull imageUrl;;
     inspect ← image_inspect imageUrl;
     container ← createContainer imageUrl;
     filesResult ← listFiles container "/app";
     container_remove container;;
     let result := {| manifest := inspect; files := filesResult |} in
     redis_setex (result_key jobId) 3600 result;;
     jobQueue_hset (job_key jobId)
       {| imageUrl := None; jobId := None; status := Some "completed";
          result := Some result; error := None |})
    (λ error,
     jobQueue_hset (job_key jobId)
       {| imageUrl := None; jobId := None; status := Some "failed";
          result := None; error := Some error |}).

(** *** The routes *)

(** [worker.processJob(..).catch(console.error)]: started, not awaited. *)
Definition dispatch (jobData : JobData) : M unit := λ w,
  (Some (Normal ()), set_background (background w ++ [jobData]) w).

(** [POST /api/inspect]; [image_name] is the field of the body, which
    [express.json()] leaves as an object ([None] when the body has no such
    field), and [uuid] the value [uuidv4()] draws. ioredis sends an
    [undefined] value as the empty string. *)
Definition post_inspect (image_name : option string) (uuid : string) : M unit :=
  try_catch
    (let imageUrl := image_name in
     let jobId := uuid in
     jobQueue_hset (job_key jobId)
       {| imageUrl := Some (default "" imageUrl); jobId := Some jobId;
          status := Some "pending"; result := None; error := None |};;
     dispatch {| job_imageUrl := imageUrl; job_jobId := jobId |};;
     send 200 (JobCreated jobId))
    (λ error, send 400 (ErrorMessage error)).

(** [GET /api/status/:jobId] *)
Definition get_status (jobId : string) : M unit :=
  try_catch
    (jobData ← jobQueue_hgetall (job_key jobId);
     if negb (truthy_object jobData)
     then send 404 (ErrorMessage "Job not found")
     else
       send 200 (JobStatus (status jobData) (result jobData)
                   (if truthy_string (error jobData) then error jobData else None)))
    (λ error, send 500 (ErrorMessage error)).

(** [GET /api/results/:jobId]; [JSON.parse(undefined)] throws. *)
Definition get_results (jobId : string) : M unit :=
  try_catch
    (cachedResult ← redis_get (result_key jobId);
     match cachedResult with
     | Some r => send 200 (Results r)
     | None =>
         jobData ← jobQueue_hgetall (job_key jobId);
         if negb (truthy_object jobData)
            || negb (bool_decide (status jobData = Some "completed"))
         then send 404 (ErrorMessage "Results not found")
         else
           match result jobData with
           | Some r => send 200 (Results r)
           | None => throw "Unexpected token u in JSON at position 0"
           end
     end)
    (λ error, send 500 (ErrorMessage error)).

(** [GET /api/file/:imageName?path=..] *)
Definition get_file (imageName : string) (filePath : option string) : M unit :=
  try_catch
    (container ← createContainer (Some imageName);
     try_finally
       (fileData ← getFileContents container filePath;
        send 200 (FileData fileData))
       (container_remove container))
    (λ error, send 404 (ErrorMessage error)).

(** Serving one request: a fresh response object, the handler, and what was
    sent; nothing was, when the process exits under the handler. *)
Definition serve (handler : M unit) (w : World) : option Response * World :=
  let w' := (handler (set_res None w)).2 in (res w', w').

(** Running the oldest started job to its end, or to the exit of the
    process. *)
Definition run_job (w : World) : World :=
  match background w with
  | [] => w
  | jobData :: rest => (processJob jobData (set_background rest w)).2
  end.

(** The clock moving on. *)
Definition advance (seconds : nat) (w : World) : World :=
  set_clock (clock w + seconds) w.

(** The status values written for one job, oldest first. *)
Definition status_history (jobId : string) (w : World) : list string :=
  (filter (λ e, e.1 = job_key jobId) (statusLog w)).*2.

(** The cache entry a result fetch finds for a job, and the job hash. *)
Definition cached (jobId : string) (w : World) : option InspectionResult :=
  live (clock w) (redis w) (result_key jobId).

Definition job_record (jobId : string) (w : World) : option Job :=
  data (jobQueue w) !! job_key jobId.

(** Every hash marked [completed] carries a result. *)
Definition consistent (w : World) : Prop :=
  ∀ key job, data (jobQueue w) !! key = Some job →
             status job = Some "completed" → is_Some (result job).

Definition terminal (s : string) : Prop := s = "completed" ∨ s = "failed".

(** *** Assertions about monadic code *)

(** From a world in [P], [m] ends in a completion and world related by [Q]. *)
Definition hoare {A} (P : World → Prop) (m : M A)
    (Q : option (completion A) → World → Prop) : Prop :=
  ∀ w, P w → Q (m w).1 (m w).2.

(** [m] writes neither the job hashes nor their status history. *)
Definition quiet {A} (m : M A) : Prop :=
  ∀ w, jobQueue (m w).2 = jobQueue w ∧ statusLog (m w).2 = statusLog w.

Definition queue_is (q : Db Job) (log : list (string * string)) (w : World)
  : Prop :=
  jobQueue w = q ∧ statusLog w = log.

(** What the last write of [processJob] leaves, for a status [t], of a
    queue that was [q] with history [log]. *)
Definition wrote (key t : string) (q : Db Job) (log : list (string * string))
    (w : World) : Prop :=
  up (jobQueue w) = true
  ∧ statusLog w = log ++ [(key, t)]
  ∧ (status <$> data (jobQueue w) !! key) = Some (Some t)
  ∧ (∀ k, k ≠ key → data (jobQueue w) !! k = data q !! k).

(** *** The service as a transition system *)

Inductive event :=
  | Submit (image_name : option string) (uuid : string)
  | Poll (jobId : string)
  | Fetch (jobId : string)
  | ReadFile (imageName : string) (filePath : option string)
  | Work
  | Tick (seconds : nat).

Definition react (w : World) (e : event) : World :=
  match e with
  | Submit image_name uuid => (serve (post_inspect image_name uuid) w).2
  | Poll jobId => (serve (get_status jobId) w).2
  | Fetch jobId => (serve (get_results jobId) w).2
  | ReadFile imageName filePath => (serve (get_file imageName filePath) w).2
  | Work => run_job w
  | Tick seconds => advance seconds w
  end.

(** The call did not settle. *)
Definition unsettled {A} (r : option (completion A) * World) : bool :=
  match r.1 with
  | None => true
  | Some _ => false
  end.

(** The process exits while it handles [e]. *)
Definition exits (w : World) (e : event) : bool :=
  match e with
  | Submit image_name uuid =>
      unsettled (post_inspect image_name uuid (set_res None w))
  | Poll jobId => unsettled (get_status jobId (set_res None w))
  | Fetch jobId => unsettled (get_results jobId (set_res None w))
  | ReadFile imageName filePath =>
      unsettled (get_file imageName filePath (set_res None w))
  | Work =>
      match background w with
      | [] => false
      | jobData :: rest => unsettled (processJob jobData (set_background rest w))
      end
  | Tick seconds => false
  end.

(** The events in turn, up to the one under which the process exits: what
    comes after it finds no server. *)
Fixpoint run (w : World) (es : list event) : World :=
  match es with
  | [] => w
  | e :: es' => if exits w e then react w e else run (react w e) es'
  end.

(** The process is still there after [es]. *)
Fixpoint survives (w : World) (es : list event) : bool :=
  match es with
  | [] => true
  | e :: es' => negb (exits w e) && survives (react w e) es'
  end.

(** *** Invariants of the service *)

(** The ids of the containers that exist were all handed out before. *)
Definition fresh_ids (w : World) : Prop :=
  ∀ id, is_Some (containers (docker w) !! id) → id < created (docker w).

(** The three values the server ever writes to a [status] field. *)
Definition known_status (s : string) : Prop :=
  s = "pending" ∨ s = "completed" ∨ s = "failed".

Definition log_known (w : World) : Prop :=
  Forall (λ e, known_status e.2) (statusLog w).

(** [m] keeps [P]; [m] touches neither the engine nor the status history;
    [P] only looks at those two. *)
Definition keeps (P : World → Prop) {A} (m : M A) : Prop :=
  ∀ w, P w → P (m w).2.

Definition neutral {A} (m : M A) : Prop :=
  ∀ w, docker (m w).2 = docker w ∧ statusLog (m w).2 = statusLog w.

Definition looks_at_engine_and_log (P : World → Prop) : Prop :=
  ∀ w w', docker w' = docker w → statusLog w' = statusLog w → P w → P w'.

(** The events that only read the stores or let time pass. *)
Definition reads_only (e : event) : Prop :=
  match e with
  | Poll _ | Fetch _ | Tick _ => True
  | Submit _ _ | ReadFile _ _ | Work => False
  end.

(** *** Example worlds *)

Definition alpine_inspect : Inspect :=
  {| Created := "2024-01-26T23:44:47Z"; Architecture := "amd64"; Os := "linux";
     Env := ["PATH=/usr/local/sbin:/usr/local/bin:/usr/sbin:/usr/bin:/sbin:/bin"];
     ImageSize := 7377931; Layers := ["sha256:d4fc045c9e3a"] |}.

Definition entry (p type : string) (bytes : Z) : TarEntry :=
  {| header_name := p; header_size := bytes; header_type := type;
     header_mtime := "2024-01-01T00:00:00.000Z"; content := "" |}.

(** An image with an [/app] directory and one without. *)
Definition app_image : Image :=
  {| inspect := alpine_inspect;
     archives := {[ "/app" := {| entries := [entry "app/" "directory" 0;
                                            entry "app/index.js" "file" 1536];
                                 ending := Finish |} ]} |}.

(** An image whose export of [/app] stops inside the content of
    [app/index.js], and one whose export holds a block that is no header. *)
Definition cut_image : Image :=
  {| inspect := alpine_inspect;
     archives := {[ "/app" := {| entries := [entry "app/" "directory" 0];
                                 ending := Uncaught |} ]} |}.

Definition garbled_image : Image :=
  {| inspect := alpine_inspect;
     archives := {[ "/app" := {| entries := [entry "app/" "directory" 0];
                                 ending := ExtractError "Invalid tar header" |} ]} |}.

Definition alpine_image : Image :=
  {| inspect := alpine_inspect; archives := ∅ |}.

Definition world0 : World :=
  {| docker := {| images := {[ "app:latest" := app_image;
                               "alpine:latest" := alpine_image ]};
                  containers := ∅; created := 0 |};
     redis := {| up := true; data := ∅ |};
     jobQueue := {| up := true; data := ∅ |};
     clock := 0;
     statusLog := [];
     res := None;
     background := [] |}.

(** The same with the two images whose exports do not end well. *)
Definition world1 : World :=
  set_docker {| images := {[ "app:latest" := app_image;
                             "alpine:latest" := alpine_image;
                             "cut:latest" := cut_image;
                             "garbled:latest" := garbled_image ]};
                containers := ∅; created := 0 |} world0.

End Server.

(* ================================================================== *)
(** ** The presentation layer: filtering the tree *)
(* ================================================================== *)

Module Frontend.

Import TreeBuilder.

(** The node objects [response.json()] allocates, addressed by index. An
    array is a list of references; the filter never writes into an array,
    it only assigns a new one to [node.children]. *)
Abbreviation Heap := (list NodeObj).

Definition obj_of (n : FileNode) (cs : option (list nat)) : NodeObj :=
  let 'Node nm p s t m _ := n in
  {| name := nm; path := p; size := s; type := t; modified := m; children := cs |}.

(** Parsing a tree allocates one object per node, children first. *)
Fixpoint parse_node (n : FileNode) (h : Heap) : nat * Heap :=
  match node_children n with
  | None => (length h, h ++ [obj_of n None])
  | Some cs =>
      let '(refs, h') :=
        (fix parse_list (l : list FileNode) (h : Heap) : list nat * Heap :=
           match l with
           | [] => ([], h)
           | c :: l' =>
               let '(r, h1) := parse_node c h in
               let '(rs, h2) := parse_list l' h1 in
               (r :: rs, h2)
           end) cs h in
      (length h', h' ++ [obj_of n (Some refs)])
  end.

Fixpoint parse_nodes (l : list FileNode) (h : Heap) : list nat * Heap :=
  match l with
  | [] => ([], h)
  | c :: l' =>
      let '(r, h1) := parse_node c h in
      let '(rs, h2) := parse_nodes l' h1 in
      (r :: rs, h2)
  end.

(** The tree an array of references denotes; [None] when [fuel] is less
    than its height or a reference dangles. *)
Fixpoint snapshot (fuel : nat) (h : Heap) (ref : nat) : option FileNode :=
  match fuel with
  | O => None
  | S fuel' =>
      o ← h !! ref;
      match children o with
      | None => Some (Node (name o) (path o) (size o) (type o) (modified o) None)
      | Some cs =>
          cs' ← mapM (snapshot fuel' h) cs;
          Some (Node (name o) (path o) (size o) (type o) (modified o) (Some cs'))
      end
  end.

Definition snapshots (fuel : nat) (h : Heap) (refs : list nat)
  : option (list FileNode) :=
  mapM (snapshot fuel h) refs.

(** [String.prototype.toLowerCase] on ASCII letters. *)
Definition lower_char (c : ascii) : ascii :=
  let n := nat_of_ascii c in
  if (65 <=? n)%nat && (n <=? 90)%nat then ascii_of_nat (n + 32) else c.

Definition toLowerCase (s : string) : string :=
  PosixPath.text (lower_char <$> PosixPath.chars s).

Fixpoint starts_with (needle hay : list ascii) : bool :=
  match needle, hay with
  | [], _ => true
  | _ :: _, [] => false
  | a :: needle', b :: hay' => bool_decide (a = b) && starts_with needle' hay'
  end.

Fixpoint includes_chars (needle hay : list ascii) : bool :=
  starts_with needle hay ||
  match hay with
  | [] => false
  | _ :: hay' => includes_chars needle hay'
  end.

(** [s.includes(needle)] *)
Definition includes (s needle : string) : bool :=
  includes_chars (PosixPath.chars needle) (PosixPath.chars s).

Definition set_children (cs : list nat) (o : NodeObj) : NodeObj :=
  {| name := name o; path := path o; size := size o; type := type o;
     modified := modified o; children := Some cs |}.

(** [filterNodes(nodes)]: the callback of [nodes.filter] runs on each
    element in turn; on a node with a [children] array it first assigns the
    filtered array to [node.children], on the node object itself. [fuel]
    bounds the depth of the recursion; [None] is running out of it. *)
Fixpoint filterNodes (fuel : nat) (searchLower : string) (nodes : list nat)
    (h : Heap) : option (list nat * Heap) :=
  match fuel with
  | O => None
  | S fuel' =>
      (fix each (nodes : list nat) (h : Heap) : option (list nat * Heap) :=
         match nodes with
         | [] => Some ([], h)
         | node :: rest =>
             o ← h !! node;
             let matches := includes (toLowerCase (name o)) searchLower in
             '(keep, h1) ←
               match children o with
               | Some cs =>
                   '(cs', h') ← filterNodes fuel' searchLower cs h;
                   Some (matches || bool_decide (0 < length cs'),
                         alter (set_children cs') node h')
               | None => Some (matches, h)
               end;
             '(kept, h2) ← each rest h1;
             Some (if keep : bool then node :: kept else kept, h2)
         end) nodes h
  end.

(** The body of the [useMemo] that computes [filteredFiles]; [files] is
    [inspectionData?.files]. *)
Definition filteredFiles (fuel : nat) (files : option (list nat))
    (searchTerm : string) (h : Heap) : option (list nat * Heap) :=
  match files with
  | Some fs =>
      if bool_decide (searchTerm = "") then Some (fs, h)
      else filterNodes fuel (toLowerCase searchTerm) fs h
  | None => Some ([], h)
  end.

(** A tree with one directory holding two files. *)
Definition sample_tree : list FileNode :=
  [Node "src" "/app/src" "0.0B" Directory "2024-01-01T00:00:00.000Z"
     (Some [Node "main.js" "/app/src/main.js" "1.5KB" File
              "2024-01-01T00:00:00.000Z" None;
            Node "util.js" "/app/src/util.js" "2.0KB" File
              "2024-01-01T00:00:00.000Z" None])].

(** [h'] is [h] with entries taken out of [children] arrays and nothing
    else changed: same objects, same fields, every array a sub-array of
    what it was. *)
Definition pruned (h h' : Heap) : Prop :=
  length h' = length h
  ∧ ∀ i o, h !! i = Some o →
      ∃ o', h' !! i = Some o' ∧ same_fields o o'
            ∧ match children o, children o' with
              | Some cs, Some cs' => sublist cs' cs
              | None, None => True
              | _, _ => False
              end.

(** What is left of it once "main" has been searched for. *)
Definition pruned_tree : list FileNode :=
  [Node "src" "/app/src" "0.0B" Directory "2024-01-01T00:00:00.000Z"
     (Some [Node "main.js" "/app/src/main.js" "1.5KB" File
              "2024-01-01T00:00:00.000Z" None])].

End Frontend.

(* ================================================================== *)
(** ** The presentation layer: state and requests *)
(* ================================================================== *)

Module Client.

Import TreeBuilder.

(** [toggleFolder(path)] on the set [expandedFolders]: a copy of the set
    with [path] taken out when it was in, put in when it was not. *)
Definition toggleFolder (expandedFolders : gset string) (path : string)
  : gset string :=
  if decide (path ∈ expandedFolders)
  then expandedFolders ∖ {[ path ]}
  else expandedFolders ∪ {[ path ]}.

(** The state of [DockerInspector] that an inspection writes. *)
Record Inspector := {
  loading : bool;
  error : option string;
  inspectionData : option Server.Payload;
  jobId : option string }.

(** The message of the error [fetch] rejects with when no answer comes
    because the server process is gone; the wording is the browser's (this
    is Chromium's). *)
Definition fetch_failed : string := "Failed to fetch".

(** [response.ok] *)
Definition ok (r : Server.Response) : bool :=
  bool_decide (200 ≤ Server.code r < 300).

(** [data.status] and [data.error] of a parsed body; a body without the
    field gives [undefined]. *)
Definition status_of (data : Server.Payload) : option string :=
  match data with
  | Server.JobStatus s _ _ => s
  | _ => None
  end.

Definition error_of (data : Server.Payload) : option string :=
  match data with
  | Server.JobStatus _ _ e => e
  | Server.ErrorMessage e => Some e
  | _ => None
  end.

(** One run of [pollJobStatus] up to its [setTimeout]: the state it
    leaves, whether it asked to be run again, and the world after its
    requests. A request that gets no answer, the server process having
    exited under it, rejects and ends in the [catch] block. *)
Definition pollJobStatus_once (id : string) (ui : Inspector) (w : Server.World)
  : Inspector * bool * Server.World :=
  match Server.serve (Server.get_status id) w with
  | (Some response, w1) =>
      let data := Server.payload response in
      if bool_decide (status_of data = Some "completed") then
        match Server.serve (Server.get_results id) w1 with
        | (Some resultsResponse, w2) =>
            ({| loading := false; error := error ui;
                inspectionData := Some (Server.payload resultsResponse);
                jobId := jobId ui |}, false, w2)
        | (None, w2) =>
            ({| loading := false; error := Some fetch_failed;
                inspectionData := inspectionData ui; jobId := jobId ui |},
             false, w2)
        end
      else if bool_decide (status_of data = Some "failed") then
        ({| loading := false; error := error_of data;
            inspectionData := inspectionData ui; jobId := jobId ui |}, false, w1)
      else (ui, true, w1)
  | (None, w1) =>
      ({| loading := false; error := Some fetch_failed;
          inspectionData := inspectionData ui; jobId := jobId ui |}, false, w1)
  end.

(** [pollJobStatus]: each element of [waits] is what happens at the server
    during one second of waiting; the poll gives its answer when it stops
    asking to be run again, or is still waiting when [waits] is used up.
    When the server process exits during a wait, the next request finds no
    server and ends in the [catch] block. *)
Fixpoint pollJobStatus (waits : list (list Server.event)) (id : string)
    (ui : Inspector) (w : Server.World) : Inspector * bool * Server.World :=
  match pollJobStatus_once id ui w with
  | (ui', true, w') =>
      match waits with
      | es :: waits' =>
          let w1 := Server.advance 1 w' in
          if Server.survives w1 es
          then pollJobStatus waits' id ui' (Server.run w1 es)
          else ({| loading := false; error := Some fetch_failed;
                   inspectionData := inspectionData ui'; jobId := jobId ui' |},
                false, Server.run w1 es)
      | [] => (ui', true, w')
      end
  | done => done
  end.

(** [handleInspect] up to its call of [pollJobStatus]: the state, the job
    id the poll is started with (none when the submission was refused),
    and the world after the request. [imageUrl] is the text of the input,
    [uuid] the id the server draws. *)
Definition handleInspect (imageUrl uuid : string) (ui : Inspector)
    (w : Server.World) : Inspector * option string * Server.World :=
  match Server.serve (Server.post_inspect (Some imageUrl) uuid) w with
  | (Some response, w1) =>
      if ok response then
        match Server.payload response with
        | Server.JobCreated job_id =>
            ({| loading := true; error := None; inspectionData := None;
                jobId := Some job_id |}, Some job_id, w1)
        | _ =>
            ({| loading := true; error := None; inspectionData := None;
                jobId := None |}, Some "undefined", w1)
        end
      else
        ({| loading := false; error := Some "Failed to start inspection";
            inspectionData := None; jobId := jobId ui |}, None, w1)
  | (None, w1) =>
      ({| loading := false; error := Some fetch_failed; inspectionData := None;
          jobId := jobId ui |}, None, w1)
  end.

(** The state of [FileViewer]; [content] is [None] when it was set to
    [undefined]. *)
Record Viewer := {
  content : option string;
  viewer_loading : bool;
  viewer_error : option string }.

(** [fetchFileContent] for the file handed to [FileViewer]: the request
    goes to [/api/file/<file.path>], with the path of the file in the
    place of the image name and no [path] parameter. An empty 200 body
    makes [response.json()] throw. *)
Definition fetchFileContent (file_path : string) (v : Viewer) (w : Server.World)
  : Viewer * Server.World :=
  match Server.serve (Server.get_file file_path None) w with
  | (Some response, w1) =>
      if ok response then
        match Server.payload response with
        | Server.FileData (Some f) =>
            ({| content := Some (file_content f); viewer_loading := false;
                viewer_error := viewer_error v |}, w1)
        | Server.FileData None =>
            ({| content := content v; viewer_loading := false;
                viewer_error := Some "Unexpected end of JSON input" |}, w1)
        | _ =>
            ({| content := None; viewer_loading := false;
                viewer_error := viewer_error v |}, w1)
        end
      else
        ({| content := content v; viewer_loading := false;
            viewer_error := Some "Failed to fetch file content" |}, w1)
  | (None, w1) =>
      ({| content := content v; viewer_loading := false;
          viewer_error := Some fetch_failed |}, w1)
  end.

End Client.

(* ================================================================== *)
(** * Properties *)
(* ================================================================== *)

Module SizeFormatterTheory.

Import SizeFormatter.
Open Scope Z_scope.

(** The loop leaves with the unit the thresholds name and the matching
    power of 1024 as divisor; the bound on the iterations is never what
    stops it early. *)
Lemma while_loop_unit (size : Z) :
  while_loop (length units - 1) size 1 0
  = (1024 ^ Z.of_nat (spec_unit size), spec_unit size).
Proof.
  unfold spec_unit. cbn [units length Nat.sub while_loop].
  repeat match goal with
  | |- context [ (?a <=? ?b)%Z ] => destruct (Z.leb_spec a b)
  | |- context [ (?a <? ?b)%Z ] => destruct (Z.ltb_spec a b)
  end; cbn [andb Nat.ltb Nat.leb]; try reflexivity; lia.
Qed.

(** [tenths] picks the nearest multiple of one tenth, the upper one on a
    tie. *)
Lemma tenths_nearest (num den : Z) :
  0 < den →
  den * (2 * tenths num den - 1) ≤ 20 * num < den * (2 * tenths num den + 1).
Proof.
  intros Hden. unfold tenths.
  pose proof (Z.div_mod (20 * num + den) (2 * den) ltac:(lia)) as Hdm.
  pose proof (Z.mod_pos_bound (20 * num + den) (2 * den) ltac:(lia)) as Hb.
  nia.
Qed.




End SizeFormatterTheory.

Module PosixPathTheory.
Import PosixPath.

Lemma chars_app (a b : string) : chars (a +:+ b) = chars a ++ chars b.
Proof.
  unfold chars. induction a as [|c a IH]; [done|].
  change (String c a +:+ b) with (String c (a +:+ b)).
  cbn [String.list_ascii_of_string app]. by rewrite IH.
Qed.

Lemma text_app (a b : list ascii) : text (a ++ b) = text a +:+ text b.
Proof.
  unfold text. induction a as [|c a IH]; [done|].
  cbn [app String.string_of_list_ascii]. rewrite IH. done.
Qed.

Lemma text_chars (p : string) : text (chars p) = p.
Proof. apply String.string_of_list_ascii_of_string. Qed.

Lemma depth_app (a b : string) : depth (a +:+ b) = depth a + depth b.
Proof. unfold depth. by rewrite chars_app, filter_app, length_app. Qed.

Lemma dirname_scan_slash (l : list ascii) (i : nat) (b : bool) (e : nat) :
  length l ≤ i → dirname_scan l i b = Some e →
  ∃ j, j < length l ∧ l !! j = Some slash ∧ e = i - j.
Proof.
  revert i b. induction l as [|c l IH]; intros i b Hi; cbn [dirname_scan]; [done|].
  cbn [length] in Hi. unfold is_slash. case_bool_decide as Hc.
  - destruct b.
    + intros (j & Hj & Hl & ->)%IH; [|lia]. exists (S j). cbn. split_and!; [lia|done|lia].
    + intros [= <-]. exists 0. subst c. cbn. split_and!; [lia|done|lia].
  - intros (j & Hj & Hl & ->)%IH; [|lia]. exists (S j). cbn. split_and!; [lia|done|lia].
Qed.

(** Unless [dirname] answers with one of its fixed results, the path it
    returns is continued by a separator in the path it was given. *)
Lemma dirname_prefix (p q : string) :
  dirname p = q → q ≠ "." → q ≠ "/" → q ≠ "//" → ∃ rest, p = q +:+ "/" +:+ rest.
Proof.
  unfold dirname. intros Hq Hdot Hroot Hroot2.
  destruct (chars p) as [|c0 tl] eqn:Hp; [congruence|].
  destruct (dirname_scan (reverse tl) (length tl) true) as [e|] eqn:Hscan;
    [|destruct (is_slash c0); congruence].
  destruct (is_slash c0 && bool_decide (e = 1)); [congruence|].
  apply dirname_scan_slash in Hscan as (j & Hj & Hl & ->);
    [|by rewrite length_reverse].
  rewrite length_reverse in Hj. rewrite reverse_lookup in Hl by done.
  exists (text (drop (S (length tl - j)) (c0 :: tl))).
  rewrite <- Hq, <- (text_chars p), Hp.
  change "/" with (text [slash]). rewrite <- !text_app. f_equal.
  cbn [app]. symmetry. apply take_drop_middle.
  replace (length tl - j) with (S (length tl - S j)) by lia. done.
Qed.

Lemma depth_extend (d rest : string) : depth d < depth (d +:+ "/" +:+ rest).
Proof. rewrite !depth_app. change (depth "/") with 1. lia. Qed.

End PosixPathTheory.

Module TreeBuilderTheory.
Import PosixPath TreeBuilder.

Section Sorting.
Implicit Types (x r : FileRecord) (l s : list FileRecord).

Lemma insert_sorted_perm x l : insert_sorted x l ≡ₚ x :: l.
Proof.
  induction l as [|y l IH]; cbn [insert_sorted]; [done|].
  case_decide; [done|]. rewrite IH. apply Permutation_swap.
Qed.

Lemma sort_by_depth_perm l : sort_by_depth l ≡ₚ l.
Proof.
  induction l as [|x l IH]; cbn; [done|].
  rewrite insert_sorted_perm. by f_equiv.
Qed.







End Sorting.

Section Loop.
Implicit Types (st : BuildState) (r f : FileRecord) (l : list FileRecord).


(** *** Reading [pathMap] *)

Lemma pathMap_get_None m k :
  pathMap_get m k = None ↔ m !! k = None ∧ k ∉ object_prototype.
Proof.
  unfold pathMap_get. destruct (m !! k); [by split; [|intros [? _]]|].
  case_decide; [by split; [|intros [_ ?]]|done].
Qed.

Lemma pathMap_get_stored m k ref :
  pathMap_get m k = Some (Stored ref) ↔ m !! k = Some ref.
Proof.
  unfold pathMap_get. destruct (m !! k); [|by case_decide].
  split; by intros [= ->].
Qed.

Lemma pathMap_get_inherited m k :
  pathMap_get m k = Some Inherited ↔ m !! k = None ∧ k ∈ object_prototype.
Proof.
  unfold pathMap_get. destruct (m !! k); [by split; [|intros [? _]]|].
  case_decide; [done|]. by split; [|intros [_ ?]].
Qed.

Lemma chars_text (l : list ascii) : chars (text l) = l.
Proof. apply String.list_ascii_of_string_of_list_ascii. Qed.

(** A parent path that starts at the root is the parent path of a path
    that starts at the root. *)
Lemma rooted_dirname (p : string) : rooted (dirname p) = true → rooted p = true.
Proof.
  unfold dirname, rooted at 2. destruct (chars p) as [|c0 tl]; [done|].
  destruct (is_slash c0) eqn:Hc0; [done|]. cbn [andb].
  destruct (dirname_scan (reverse tl) (length tl) true) as [e|] eqn:Hscan; [|done].
  apply PosixPathTheory.dirname_scan_slash in Hscan as (j & Hj & _ & ->);
    [|by rewrite length_reverse].
  rewrite length_reverse in Hj.
  destruct (length tl - j) as [|e] eqn:He; [lia|].
  unfold rooted. rewrite chars_text. cbn [take]. by rewrite Hc0.
Qed.

Lemma inherited_facts k :
  k ∈ object_prototype → rooted k = false ∧ dirname k = "." ∧ k ≠ ".".
Proof.
  intros Hk. unfold object_prototype in Hk.
  repeat (apply elem_of_cons in Hk as [->|Hk]; [by vm_compute|]).
  by apply elem_of_nil in Hk.
Qed.

(** The parent path of a record is never the record's own path when it
    names an inherited property. *)
Lemma inherited_parent_differs (p : string) :
  dirname p ∈ object_prototype → dirname p ≠ p.
Proof.
  intros Hin Heq. destruct (inherited_facts _ Hin) as (_ & Hdot & Hne).
  rewrite Heq in Hdot, Hne. by rewrite Hdot in Heq.
Qed.

(** *** Skipped records *)

Lemma step_missing_parent st f :
  pathMap_get (pathMap st) (dirname (file_path f)) = None → step st f = Normal st.
Proof. unfold step. by intros ->. Qed.





(** *** Stored paths, and what is thrown *)

Lemma init_stored_ok : stored_ok init.
Proof.
  intros k ref Hk. cbn in Hk. apply lookup_singleton_Some in Hk as [<- <-].
  split; [done|cbn; lia].
Qed.

Lemma push_child_length parent node os os' :
  push_child parent node os = Normal os' → length os' = length os.
Proof.
  unfold push_child. destruct (os !! parent) as [o|]; [|done].
  destruct (children o); [|done]. intros [= <-]. apply length_insert.
Qed.

Lemma step_stored_ok st f st' :
  stored_ok st → step st f = Normal st' → stored_ok st'.
Proof.
  intros Hst. unfold step.
  destruct (pathMap_get (pathMap st) _) as [first|] eqn:Hfirst;
    [|by intros [= <-]].
  destruct (pathMap_get (<[_:=_]> _) _) as [[parent|]|] eqn:Hsecond; [|done..].
  destruct (push_child _ _ _) as [os|] eqn:Hpush; [|done]. intros [= <-].
  apply push_child_length in Hpush. rewrite length_app in Hpush. cbn in Hpush.
  assert (Hroot : rooted (file_path f) = true).
  { apply rooted_dirname. destruct first as [ref|].
    - apply pathMap_get_stored in Hfirst. by apply Hst in Hfirst as [? _].
    - apply pathMap_get_inherited in Hfirst as [Hnone Hin].
      apply pathMap_get_stored in Hsecond.
      rewrite lookup_insert_ne in Hsecond
        by (intros Heq; by apply (inherited_parent_differs (file_path f))).
      congruence. }
  intros k ref. cbn. rewrite Hpush.
  destruct (decide (k = file_path f)) as [->|Hk].
  - rewrite lookup_insert_eq. intros [= <-]. split; [done|lia].
  - rewrite lookup_insert_ne by done. intros [? ?]%Hst. split; [done|lia].
Qed.

Lemma loop_stored_ok st l st' :
  stored_ok st → loop st l = Normal st' → stored_ok st'.
Proof.
  revert st. induction l as [|f l IH]; intros st Hst; cbn [loop].
  - by intros [= <-].
  - destruct (step st f) as [st1|] eqn:Hstep; [|done].
    apply IH. by eapply step_stored_ok.
Qed.

(** The only error the loop ever throws is the one of a push on a missing
    [children] array. *)
Lemma step_throw st f e :
  stored_ok st → step st f = Throw e →
  e = "Cannot read properties of undefined (reading 'push')".
Proof.
  intros Hst. unfold step.
  destruct (pathMap_get (pathMap st) _) as [first|] eqn:Hfirst; [|done].
  destruct (pathMap_get (<[_:=_]> _) _) as [[parent|]|] eqn:Hsecond.
  - apply pathMap_get_stored in Hsecond.
    assert (Hparent : parent < length (objs st ++ [
              {| name := file_name f; path := file_path f;
                 size := SizeFormatter.formatSize (file_size f);
                 type := file_type f; modified := file_modified f;
                 children := if decide (file_type f = Directory)
                             then Some [] else None |}])).
    { rewrite length_app. cbn.
      destruct (decide (dirname (file_path f) = file_path f)) as [Heq|Hne].
      - rewrite Heq, lookup_insert_eq in Hsecond. injection Hsecond as <-. lia.
      - rewrite lookup_insert_ne in Hsecond by done.
        apply Hst in Hsecond as [_ ?]. lia. }
    apply lookup_lt_is_Some_2 in Hparent as [o Ho].
    unfold push_child. rewrite Ho. destruct (children o); [done|].
    by intros [= <-].
  - by intros [= <-].
  - exfalso. apply pathMap_get_None in Hsecond as [Hnone Hout].
    destruct first as [ref|].
    + apply pathMap_get_stored in Hfirst.
      destruct (decide (dirname (file_path f) = file_path f)) as [Heq|Hne].
      * by rewrite Heq, lookup_insert_eq in Hnone.
      * rewrite lookup_insert_ne in Hnone by done. congruence.
    + by apply pathMap_get_inherited in Hfirst as [_ ?].
Qed.

Lemma loop_throw st l e :
  stored_ok st → loop st l = Throw e →
  e = "Cannot read properties of undefined (reading 'push')".
Proof.
  revert st. induction l as [|f l IH]; intros st Hst; cbn [loop]; [done|].
  destruct (step st f) as [st1|e1] eqn:Hstep.
  - apply IH. by eapply step_stored_ok.
  - intros [= <-]. by eapply step_throw.
Qed.

(** A parent path that names an inherited property is not skipped: the
    read is truthy, and the push finds no [children]. *)
Lemma step_inherited_parent st f :
  stored_ok st → dirname (file_path f) ∈ object_prototype →
  step st f = Throw "Cannot read properties of undefined (reading 'push')".
Proof.
  intros Hst Hin. destruct (inherited_facts _ Hin) as (Hroot & _ & _).
  assert (Hnone : pathMap st !! dirname (file_path f) = None).
  { destruct (pathMap st !! dirname (file_path f)) as [ref|] eqn:Hp; [|done].
    apply Hst in Hp as [? _]. congruence. }
  unfold step.
  rewrite (proj2 (pathMap_get_inherited _ _) (conj Hnone Hin)).
  rewrite (proj2 (pathMap_get_inherited _ _)); [done|]. split; [|done].
  rewrite lookup_insert_ne; [done|].
  intros Heq. by apply (inherited_parent_differs (file_path f)).
Qed.

Lemma loop_inherited_parent st l :
  stored_ok st → inherited_parent l →
  loop st l = Throw "Cannot read properties of undefined (reading 'push')".
Proof.
  intros Hst Hl. revert st Hst.
  induction Hl as [f l Hf|f l _ IH]; intros st Hst; cbn [loop].
  - by rewrite step_inherited_parent.
  - destruct (step st f) as [st1|e] eqn:Hstep.
    + apply IH. by eapply step_stored_ok.
    + f_equal. by eapply step_throw.
Qed.

Lemma buildFileTree_inherited_parent files :
  inherited_parent files →
  (buildFileTree files).2
  = Throw "Cannot read properties of undefined (reading 'push')".
Proof.
  intros Hfiles. unfold buildFileTree. cbn [snd].
  rewrite loop_inherited_parent; [done|apply init_stored_ok|].
  unfold inherited_parent in *. by rewrite sort_by_depth_perm.
Qed.

(** A record at the path [__proto__] is never stored: its parent path is
    ".", which is neither stored nor inherited. *)
Lemma proto_record_is_skipped st f :
  stored_ok st → file_path f = "__proto__" → step st f = Normal st.
Proof.
  intros Hst Hf. apply step_missing_parent. rewrite Hf.
  change (dirname "__proto__") with ".".
  apply pathMap_get_None. split; [|compute_done].
  destruct (pathMap st !! ".") as [ref|] eqn:Hp; [|done].
  by apply Hst in Hp as [? _].
Qed.
End Loop.



Section Order.
Implicit Types (r d : FileRecord) (l files : list FileRecord).

Lemma below_deeper (p q : string) : below p q → depth q < depth p.
Proof. intros [rest ->]. apply PosixPathTheory.depth_extend. Qed.


End Order.



End TreeBuilderTheory.

Module ServerTheory.
Import PosixPath TreeBuilder Server.

(** *** Rules *)

Section Rules.
Context {A B : Type}.
Implicit Types (P : World → Prop).

Lemma hoare_bind P (m : M A) (f : A → M B) R
    (Q : option (completion B) → World → Prop) :
  hoare P m R →
  (∀ a, hoare (R (Some (Normal a))) (f a) Q) →
  (∀ e w, R (Some (Throw e)) w → Q (Some (Throw e)) w) →
  (∀ w, R None w → Q None w) →
  hoare P (m ≫= f) Q.
Proof.
  intros Hm Hf He Hx w Hw. specialize (Hm w Hw).
  unfold mbind, M_bind. destruct (m w) as [[[a|e]|] w']; cbn in *.
  - by apply Hf.
  - by apply He.
  - by apply Hx.
Qed.

Lemma hoare_try_catch P (body : M A) (handler : string → M A) R
    (Q : option (completion A) → World → Prop) :
  hoare P body R →
  (∀ a w, R (Some (Normal a)) w → Q (Some (Normal a)) w) →
  (∀ e, hoare (R (Some (Throw e))) (handler e) Q) →
  (∀ w, R None w → Q None w) →
  hoare P (try_catch body handler) Q.
Proof.
  intros Hb Hn Hh Hx w Hw. specialize (Hb w Hw).
  unfold try_catch. destruct (body w) as [[[a|e]|] w']; cbn in *.
  - by apply Hn.
  - by apply Hh.
  - by apply Hx.
Qed.

Lemma hoare_weaken P P' (m : M A)
    (Q Q' : option (completion A) → World → Prop) :
  hoare P' m Q' → (∀ w, P w → P' w) → (∀ r w, Q' r w → Q r w) → hoare P m Q.
Proof. intros Hm HP HQ w Hw. apply HQ, Hm, HP, Hw. Qed.

Lemma quiet_bind (m : M A) (f : A → M B) :
  quiet m → (∀ a, quiet (f a)) → quiet (m ≫= f).
Proof.
  intros Hm Hf w. specialize (Hm w). unfold mbind, M_bind.
  destruct (m w) as [[[a|e]|] w']; cbn in *; [|done..].
  destruct (Hf a w') as [-> ->]. done.
Qed.

Lemma quiet_hoare (m : M A) q log :
  quiet m → hoare (queue_is q log) m (λ _, queue_is q log).
Proof. intros Hm w [<- <-]. apply Hm. Qed.

(** A quiet step in front of [f] changes nothing of what [f] does to the
    queue; when it throws or never settles, the queue is as it was. *)
Lemma hoare_quiet_bind (m : M A) (f : A → M B) q log
    (Q : option (completion B) → World → Prop) :
  quiet m →
  (∀ a, hoare (queue_is q log) (f a) Q) →
  (∀ e w, queue_is q log w → Q (Some (Throw e)) w) →
  (∀ w, queue_is q log w → Q None w) →
  hoare (queue_is q log) (m ≫= f) Q.
Proof.
  intros Hm Hf He Hx. eapply hoare_bind; [by apply quiet_hoare|..]; done.
Qed.
End Rules.

(** *** The operations that leave the queue alone *)

Ltac quiet_op := intros w; cbv beta delta [
    docker_pull image_inspect createContainer getArchive container_remove
    redis_setex redis_get jobQueue_hgetall send dispatch extractTarStream
    throw exit mret M_ret];
  repeat case_match; done.

Lemma quiet_docker_pull n : quiet (docker_pull n).
Proof. quiet_op. Qed.
Lemma quiet_image_inspect n : quiet (image_inspect n).
Proof. quiet_op. Qed.
Lemma quiet_createContainer n : quiet (createContainer n).
Proof. quiet_op. Qed.
Lemma quiet_getArchive c p : quiet (getArchive c p).
Proof. quiet_op. Qed.
Lemma quiet_container_remove c : quiet (container_remove c).
Proof. quiet_op. Qed.
Lemma quiet_redis_setex k s v : quiet (redis_setex k s v).
Proof. quiet_op. Qed.
Lemma quiet_redis_get k : quiet (redis_get k).
Proof. quiet_op. Qed.
Lemma quiet_jobQueue_hgetall k : quiet (jobQueue_hgetall k).
Proof. quiet_op. Qed.
Lemma quiet_send c p : quiet (send c p).
Proof. quiet_op. Qed.
Lemma quiet_dispatch jd : quiet (dispatch jd).
Proof. quiet_op. Qed.
Lemma quiet_extractTarStream t : quiet (extractTarStream t).
Proof. quiet_op. Qed.
Lemma quiet_throw {A} e : quiet (throw (A:=A) e).
Proof. quiet_op. Qed.
Lemma quiet_mret {A} (a : A) : quiet (mret a).
Proof. quiet_op. Qed.

Lemma quiet_listFiles c p : quiet (listFiles c p).
Proof.
  unfold listFiles. apply quiet_bind; [apply quiet_getArchive|intros t].
  apply quiet_bind; [apply quiet_extractTarStream|intros fs].
  destruct (buildFileTree fs).2; [apply quiet_mret|apply quiet_throw].
Qed.

Lemma quiet_exit {A} : quiet (exit (A:=A)).
Proof. quiet_op. Qed.

(** *** Writing a job hash *)

Lemma jobQueue_hset_up key fields w :
  up (jobQueue w) = true →
  (jobQueue_hset key fields w).1 = Some (Normal ())
  ∧ up (jobQueue (jobQueue_hset key fields w).2) = true
  ∧ data (jobQueue (jobQueue_hset key fields w).2)
    = <[key := write_fields fields (default no_fields (data (jobQueue w) !! key))]>
        (data (jobQueue w))
  ∧ statusLog (jobQueue_hset key fields w).2
    = statusLog w ++ from_option (λ s, [(key, s)]) [] (status fields).
Proof. unfold jobQueue_hset. by intros ->. Qed.

Lemma jobQueue_hset_down key fields w :
  up (jobQueue w) = false →
  jobQueue_hset key fields w = (Some (Throw unreachable), w).
Proof. unfold jobQueue_hset. by intros ->. Qed.

Lemma hoare_hset_status key fields t q log :
  up q = true → status fields = Some t →
  hoare (queue_is q log) (jobQueue_hset key fields)
    (λ r w, r = Some (Normal ()) ∧ wrote key t q log w).
Proof.
  intros Hup Ht w [<- <-].
  destruct (jobQueue_hset_up key fields w Hup) as (-> & Hup' & Hdata & Hlog).
  split; [done|]. unfold wrote. rewrite Hup', Hdata, Hlog, Ht. split_and!; [done..| |].
  - rewrite lookup_insert_eq. cbn. by rewrite Ht.
  - intros k Hk. by rewrite lookup_insert_ne.
Qed.

(** A job that runs to its end writes one terminal status; one under which
    the process exits has written nothing. *)
Lemma processJob_writes_one_terminal jobData q log :
  up q = true →
  hoare (queue_is q log) (processJob jobData)
    (λ r w, match r with
            | Some _ =>
                ∃ t, terminal t ∧ wrote (job_key (job_jobId jobData)) t q log w
            | None => queue_is q log w
            end).
Proof.
  intros Hup. unfold processJob.
  eapply hoare_try_catch with
    (R := λ r w, match r with
                 | Some (Normal _) =>
                     wrote (job_key (job_jobId jobData)) "completed" q log w
                 | Some (Throw _) | None => queue_is q log w
                 end).
  - apply hoare_quiet_bind; [apply quiet_docker_pull| |done..]. intros _.
    apply hoare_quiet_bind; [apply quiet_image_inspect| |done..]. intros insp.
    apply hoare_quiet_bind; [apply quiet_createContainer| |done..]. intros c.
    apply hoare_quiet_bind; [apply quiet_listFiles| |done..]. intros fs.
    apply hoare_quiet_bind; [apply quiet_container_remove| |done..]. intros _.
    apply hoare_quiet_bind; [apply quiet_redis_setex| |done..]. intros _.
    eapply hoare_weaken; [by apply (hoare_hset_status _ _ "completed")|done|].
    by intros r w [-> ?].
  - intros _ w Hw. exists "completed". split; [by left|done].
  - intros e. eapply hoare_weaken; [by apply (hoare_hset_status _ _ "failed")|done|].
    intros r w [-> Hw]. exists "failed". split; [by right|done].
  - done.
Qed.

(** *** Submitting *)

Lemma post_inspect_up image_name uuid w :
  up (jobQueue w) = true →
  let out := serve (post_inspect image_name uuid) w in
  out.1 = Some {| code := 200; payload := JobCreated uuid |}
  ∧ up (jobQueue out.2) = true
  ∧ statusLog out.2 = statusLog w ++ [(job_key uuid, "pending")]
  ∧ (status <$> job_record uuid out.2) = Some (Some "pending")
  ∧ background out.2
    = background w ++ [{| job_imageUrl := image_name; job_jobId := uuid |}]
  ∧ docker out.2 = docker w ∧ redis out.2 = redis w.
Proof.
  intros Hup. unfold serve, post_inspect, try_catch, job_record.
  unfold mbind, M_bind, jobQueue_hset, dispatch, send. cbn.
  rewrite Hup. cbn. rewrite lookup_insert_eq. done.
Qed.

Lemma post_inspect_down image_name uuid w :
  up (jobQueue w) = false →
  let out := serve (post_inspect image_name uuid) w in
  out.1 = Some {| code := 400; payload := ErrorMessage unreachable |}
  ∧ jobQueue out.2 = jobQueue w
  ∧ statusLog out.2 = statusLog w
  ∧ background out.2 = background w.
Proof.
  intros Hup. unfold serve, post_inspect, try_catch.
  unfold mbind, M_bind, jobQueue_hset, dispatch, send. cbn.
  rewrite Hup. done.
Qed.

Lemma status_history_app jobId w log more :
  statusLog w = log ++ more →
  status_history jobId w
  = (filter (λ e, e.1 = job_key jobId) log).*2
    ++ (filter (λ e, e.1 = job_key jobId) more).*2.
Proof. unfold status_history. intros ->. by rewrite filter_app, fmap_app. Qed.

(** C1 (amended). A submission the job store accepts writes [pending] and
    starts the worker without running it; the worker, whenever it runs to
    its end with the job store reachable, writes exactly one further
    status, [completed] or [failed] (it writes none when the process exits
    under it). [processing] is never written: run right after the
    submission, the job's history grows by [pending] and then that one
    terminal status. *)
Theorem status_goes_pending_then_terminal
    (w : World) (image_name : option string) (uuid : string) :
  up (jobQueue w) = true →
  let jobData := {| job_imageUrl := image_name; job_jobId := uuid |} in
  let w1 := (serve (post_inspect image_name uuid) w).2 in
  background w1 = background w ++ [jobData]
  ∧ statusLog w1 = statusLog w ++ [(job_key uuid, "pending")]
  ∧ (∀ w2, up (jobQueue w2) = true →
       match (processJob jobData w2).1 with
       | Some _ =>
           ∃ t, terminal t
                ∧ statusLog (processJob jobData w2).2
                  = statusLog w2 ++ [(job_key uuid, t)]
                ∧ (status <$> job_record uuid (processJob jobData w2).2)
                  = Some (Some t)
       | None => statusLog (processJob jobData w2).2 = statusLog w2
       end)
  ∧ (is_Some (processJob jobData w1).1 →
     ∃ t, terminal t
          ∧ status_history uuid (processJob jobData w1).2
            = status_history uuid w ++ ["pending"; t]).
Proof.
  intros Hup jobData w1.
  destruct (post_inspect_up image_name uuid w Hup)
    as (_ & Hup1 & Hlog1 & _ & Hbg & _).
  assert (Hrun : ∀ w2, up (jobQueue w2) = true →
       match (processJob jobData w2).1 with
       | Some _ =>
           ∃ t, terminal t
                ∧ statusLog (processJob jobData w2).2
                  = statusLog w2 ++ [(job_key uuid, t)]
                ∧ (status <$> job_record uuid (processJob jobData w2).2)
                  = Some (Some t)
       | None => statusLog (processJob jobData w2).2 = statusLog w2
       end).
  { intros w2 Hup2.
    pose proof (processJob_writes_one_terminal jobData (jobQueue w2)
                  (statusLog w2) Hup2 w2 (conj eq_refl eq_refl)) as Hend.
    destruct (processJob jobData w2).1.
    - destruct Hend as (t & Ht & _ & Hlog & Hst & _). by exists t.
    - by destruct Hend as [_ ?]. }
  split_and!; [exact Hbg|exact Hlog1|exact Hrun|].
  intros [r Hr]. specialize (Hrun w1 Hup1). rewrite Hr in Hrun.
  destruct Hrun as (t & Ht & Hlog & _). exists t. split; [done|].
  fold w1 in Hlog1. rewrite Hlog1, <- app_assoc in Hlog.
  rewrite (status_history_app _ _ _ _ Hlog).
  unfold status_history. f_equal.
  cbn [app]. rewrite !filter_cons, filter_nil. cbn [fst]. by rewrite !decide_True.
Qed.

Lemma status_goes_pending_then_terminal_witness :
  up (jobQueue world0) = true
  ∧ ∃ t, terminal t
         ∧ status_history "job-1"
             (processJob {| job_imageUrl := Some "alpine:latest";
                            job_jobId := "job-1" |}
                (serve (post_inspect (Some "alpine:latest") "job-1") world0).2).2
           = status_history "job-1" world0 ++ ["pending"; t].
Proof.
  split; [reflexivity|].
  apply (status_goes_pending_then_terminal world0 (Some "alpine:latest") "job-1").
  - reflexivity.
  - vm_compute. by eexists.
Defined.

(** C1, as stated, fails: a job that runs to completion was never
    [processing]. *)
Lemma completed_job_was_never_processing :
  let w := run world0 [Submit (Some "app:latest") "job-1"; Work] in
  status_history "job-1" w = ["pending"; "completed"]
  ∧ "processing" ∉ status_history "job-1" w.
Proof.
  assert (H : status_history "job-1"
                (run world0 [Submit (Some "app:latest") "job-1"; Work])
              = ["pending"; "completed"]) by (vm_compute; reflexivity).
  cbv zeta. rewrite H. split; [done|].
  intros Hin. repeat (apply elem_of_cons in Hin as [Hin|Hin]; [discriminate|]).
  by apply elem_of_nil in Hin.
Qed.

(** C3 (amended). The route does not look at the image reference: whatever
    it is (absent and empty included), a reachable job store gets a
    [pending] hash, the worker is started and not awaited, and the job id
    is returned; 400 is the answer when the job store refuses the write,
    and then nothing is created or started. *)
Theorem inspect_accepts_any_reference
    (w : World) (image_name : option string) (uuid : string) :
  let out := serve (post_inspect image_name uuid) w in
  if up (jobQueue w) then
    out.1 = Some {| code := 200; payload := JobCreated uuid |}
    ∧ (status <$> job_record uuid out.2) = Some (Some "pending")
    ∧ background out.2
      = background w ++ [{| job_imageUrl := image_name; job_jobId := uuid |}]
  else
    out.1 = Some {| code := 400; payload := ErrorMessage unreachable |}
    ∧ jobQueue out.2 = jobQueue w
    ∧ background out.2 = background w.
Proof.
  destruct (up (jobQueue w)) eqn:Hup.
  - destruct (post_inspect_up image_name uuid w Hup) as (? & _ & _ & ? & ? & _).
    done.
  - destruct (post_inspect_down image_name uuid w Hup) as (? & ? & _ & ?).
    done.
Qed.

(** C3, as stated, fails: an empty and a missing image reference both get a
    job and a job id, not a 400. *)
Lemma empty_reference_gets_a_job :
  (serve (post_inspect (Some "") "job-1") world0).1
  = Some {| code := 200; payload := JobCreated "job-1" |}
  ∧ is_Some (job_record "job-1" (serve (post_inspect (Some "") "job-1") world0).2)
  ∧ (serve (post_inspect None "job-2") world0).1
    = Some {| code := 200; payload := JobCreated "job-2" |}
  ∧ is_Some (job_record "job-2" (serve (post_inspect None "job-2") world0).2).
Proof. split_and!; vm_compute; eauto. Qed.

(** *** Polling and fetching *)

Lemma get_status_up jobId w :
  up (jobQueue w) = true →
  (serve (get_status jobId) w).1
  = Some {| code := 200;
            payload :=
              let job := default no_fields (job_record jobId w) in
              JobStatus (status job) (result job)
                (if truthy_string (error job) then error job else None) |}.
Proof.
  intros Hup. unfold serve, get_status, try_catch, job_record.
  unfold mbind, M_bind, jobQueue_hgetall, send. cbn. rewrite Hup. done.
Qed.

(** A known job is answered with its status, result and error. *)
Lemma known_job_status jobId job w :
  up (jobQueue w) = true → job_record jobId w = Some job →
  (serve (get_status jobId) w).1
  = Some {| code := 200;
            payload := JobStatus (status job) (result job)
                         (if truthy_string (error job) then error job else None) |}.
Proof. intros Hup Hjob. rewrite get_status_up by done. by rewrite Hjob. Qed.

(** C4, at the failing input: hgetall answers an unknown key with the empty
    object, which is truthy, so the 404 branch is not taken; the route
    answers 200 with no status, no result and no error. *)
Theorem unknown_job_is_answered_200 (w : World) (jobId : string) :
  up (jobQueue w) = true → job_record jobId w = None →
  (serve (get_status jobId) w).1
  = Some {| code := 200; payload := JobStatus None None None |}.
Proof. intros Hup Hjob. rewrite get_status_up by done. by rewrite Hjob. Qed.

Lemma unknown_job_is_answered_200_witness :
  (serve (get_status "never-created") world0).1
  = Some {| code := 200; payload := JobStatus None None None |}.
Proof.
  apply (unknown_job_is_answered_200 world0 "never-created"); reflexivity.
Defined.

(** *** Every completed hash carries its result *)

Lemma consistent_queue w w' :
  jobQueue w' = jobQueue w → consistent w → consistent w'.
Proof. unfold consistent. by intros ->. Qed.

Lemma quiet_consistent {A} (m : M A) :
  quiet m → hoare consistent m (λ _, consistent).
Proof. intros Hm w Hw. eapply consistent_queue; [apply Hm|done]. Qed.

Lemma hset_consistent key fields :
  (status fields = Some "completed" → is_Some (result fields)) →
  hoare consistent (jobQueue_hset key fields) (λ _, consistent).
Proof.
  intros Hfields w Hw. unfold jobQueue_hset.
  destruct (up (jobQueue w)); [|done]. cbn.
  intros k job. cbn. destruct (decide (k = key)) as [->|Hne].
  - rewrite lookup_insert_eq. intros [= <-]. cbn.
    destruct fields as [? ? [s|] [r|] ?]; cbn in *; [by eexists| |by eexists|].
    + intros [= ->]. by destruct Hfields.
    + destruct (data (jobQueue w) !! key) as [old|] eqn:Hold; cbn; [|done].
      by apply (Hw key).
  - rewrite lookup_insert_ne by done. apply Hw.
Qed.

Ltac step_quiet lem :=
  eapply hoare_bind; [apply quiet_consistent, lem| |done..].

Lemma processJob_consistent jobData :
  hoare consistent (processJob jobData) (λ _, consistent).
Proof.
  unfold processJob.
  eapply hoare_try_catch with (R := λ _, consistent); [|done| |done].
  - step_quiet quiet_docker_pull. intros ?.
    step_quiet quiet_image_inspect. intros insp.
    step_quiet quiet_createContainer. intros c.
    step_quiet quiet_listFiles. intros fs.
    step_quiet quiet_container_remove. intros ?.
    step_quiet quiet_redis_setex. intros ?.
    apply hset_consistent. by eexists.
  - intros e. by apply hset_consistent.
Qed.

Lemma post_inspect_consistent image_name uuid :
  hoare consistent (post_inspect image_name uuid) (λ _, consistent).
Proof.
  unfold post_inspect.
  eapply hoare_try_catch with (R := λ _, consistent); [|done| |done].
  - eapply hoare_bind; [by apply hset_consistent| |done..]. intros ?.
    step_quiet quiet_dispatch. intros ?.
    apply quiet_consistent, quiet_send.
  - intros e. apply quiet_consistent, quiet_send.
Qed.

Lemma quiet_try_catch {A} (body : M A) handler :
  quiet body → (∀ e, quiet (handler e)) → quiet (try_catch body handler).
Proof.
  intros Hb Hh w. specialize (Hb w). unfold try_catch.
  destruct (body w) as [[[a|e]|] w']; cbn in *; [done| |done].
  destruct (Hh e w') as [-> ->]. done.
Qed.

Lemma quiet_try_finally {A} (body : M A) cleanup :
  quiet body → quiet cleanup → quiet (try_finally body cleanup).
Proof.
  intros Hb Hc w. specialize (Hb w). unfold try_finally.
  destruct (body w) as [[r|] w']; cbn in *; [|done].
  specialize (Hc w'). destruct (cleanup w') as [[[[]|e]|] w'']; cbn in *;
    destruct Hc as [-> ->]; done.
Qed.

Lemma quiet_get_status jobId : quiet (get_status jobId).
Proof.
  unfold get_status. apply quiet_try_catch; [|intros; apply quiet_send].
  apply quiet_bind; [apply quiet_jobQueue_hgetall|intros job].
  destruct (negb _); apply quiet_send.
Qed.

Lemma quiet_get_results jobId : quiet (get_results jobId).
Proof.
  unfold get_results. apply quiet_try_catch; [|intros; apply quiet_send].
  apply quiet_bind; [apply quiet_redis_get|intros [r|]]; [apply quiet_send|].
  apply quiet_bind; [apply quiet_jobQueue_hgetall|intros job].
  destruct (_ || _); [apply quiet_send|].
  destruct (result job); [apply quiet_send|apply quiet_throw].
Qed.

Lemma quiet_get_file imageName filePath : quiet (get_file imageName filePath).
Proof.
  unfold get_file. apply quiet_try_catch; [|intros; apply quiet_send].
  apply quiet_bind; [apply quiet_createContainer|intros c].
  apply quiet_try_finally; [|apply quiet_container_remove].
  apply quiet_bind; [|intros; apply quiet_send].
  unfold getFileContents.
  apply quiet_bind; [apply quiet_getArchive|intros t].
  apply quiet_bind; [apply quiet_extractTarStream|intros; apply quiet_mret].
Qed.

Lemma react_consistent w e : consistent w → consistent (react w e).
Proof.
  intros Hw. destruct e; cbn [react]; unfold serve, run_job, advance.
  - by apply post_inspect_consistent.
  - by apply (quiet_consistent _ (quiet_get_status _)).
  - by apply (quiet_consistent _ (quiet_get_results _)).
  - by apply (quiet_consistent _ (quiet_get_file _ _)).
  - destruct (background w); [done|]. by apply processJob_consistent.
  - done.
Qed.

Lemma world0_consistent : consistent world0.
Proof. intros key job Hjob. cbn in Hjob. by rewrite lookup_empty in Hjob. Qed.

(** What every event keeps, every run keeps, whether the process lives
    through it or not. *)
Lemma run_invariant (P : World → Prop) :
  (∀ w e, P w → P (react w e)) → ∀ w es, P w → P (run w es).
Proof.
  intros Hreact w es. revert w.
  induction es as [|e es IH]; intros w Hw; cbn [run]; [done|].
  destruct (exits w e); [by apply Hreact|by apply IH, Hreact].
Qed.

(** Whatever happens to the service, the invariant of C8 holds. *)
Lemma run_consistent w es : consistent w → consistent (run w es).
Proof. apply run_invariant. intros ? ?. apply react_consistent. Qed.

Lemma get_results_down jobId w :
  up (redis w) = false ∨ (cached jobId w = None ∧ up (jobQueue w) = false) →
  (serve (get_results jobId) w).1
  = Some {| code := 500; payload := ErrorMessage unreachable |}.
Proof.
  unfold cached, serve, get_results, try_catch.
  unfold mbind, M_bind, redis_get, jobQueue_hgetall, send. cbn.
  intros [Hredis|[Hmiss Hqueue]].
  - by rewrite Hredis.
  - destruct (up (redis w)); [|done]. rewrite Hmiss. cbn. by rewrite Hqueue.
Qed.

(** C8 (amended). Every completed hash carries its result in every world
    the service reaches. In such a world, with the cache answering, a
    result fetch returns the cache entry when there is one; without one,
    and with the job store answering, it returns the result of the job
    hash when that hash is [completed], and answers 404 when it is not, an
    unknown job included. When the cache does not answer, or the job store
    does not answer after a miss, the answer is 500. *)
Theorem results_from_cache_then_job (w : World) (jobId : string) :
  consistent w →
  let response := (serve (get_results jobId) w).1 in
  (up (redis w) = true →
   (∀ r, cached jobId w = Some r →
         response = Some {| code := 200; payload := Results r |})
   ∧ (∀ job, cached jobId w = None → up (jobQueue w) = true →
             job_record jobId w = Some job →
             status job = Some "completed" →
             ∃ r, result job = Some r
                  ∧ response = Some {| code := 200; payload := Results r |})
   ∧ (cached jobId w = None → up (jobQueue w) = true →
      (∀ job, job_record jobId w = Some job → status job ≠ Some "completed") →
      response
      = Some {| code := 404; payload := ErrorMessage "Results not found" |}))
  ∧ (up (redis w) = false ∨ (cached jobId w = None ∧ up (jobQueue w) = false) →
     response = Some {| code := 500; payload := ErrorMessage unreachable |}).
Proof.
  intros Hcons. cbv zeta. split; [|apply get_results_down].
  intros Hredis. unfold cached, job_record.
  unfold serve, get_results, try_catch.
  unfold mbind, M_bind, redis_get, jobQueue_hgetall, send. cbn.
  rewrite Hredis. split_and!.
  - by intros r ->.
  - intros job -> Hqueue Hjob Hdone. unfold set_res; cbn. rewrite Hqueue, Hjob. cbn.
    destruct (Hcons _ _ Hjob Hdone) as [r Hr]. exists r. split; [done|].
    rewrite bool_decide_true by done. cbn. by rewrite Hr.
  - intros -> Hqueue Hnot. unfold set_res; cbn. rewrite Hqueue.
    destruct (data (jobQueue w) !! job_key jobId) as [job|] eqn:Hjob; cbn.
    + rewrite bool_decide_false by by apply Hnot. done.
    + done.
Qed.

Lemma results_from_cache_then_job_witness :
  let w := run world0 [Submit (Some "app:latest") "job-1"; Work; Tick 3600] in
  cached "job-1" w = None
  ∧ (∃ r, (serve (get_results "job-1") w).1
          = Some {| code := 200; payload := Results r |})
  ∧ (serve (get_results "job-1") (set_redis {| up := false; data := ∅ |} w)).1
    = Some {| code := 500; payload := ErrorMessage unreachable |}.
Proof.
  set (w := run world0 [Submit (Some "app:latest") "job-1"; Work; Tick 3600]).
  destruct (results_from_cache_then_job w "job-1") as [Hup _];
    [apply run_consistent, world0_consistent|].
  destruct Hup as (_ & Hjob & _); [reflexivity|].
  destruct (results_from_cache_then_job
              (set_redis {| up := false; data := ∅ |} w) "job-1") as [_ Hdown].
  { apply (consistent_queue w); [done|apply run_consistent, world0_consistent]. }
  split; [reflexivity|]. split; [|apply Hdown; by left].
  destruct (job_record "job-1" w) as [job|] eqn:Hrec;
    [|vm_compute in Hrec; discriminate].
  destruct (Hjob job) as (r & _ & Hresp);
    [reflexivity|reflexivity|reflexivity|
     vm_compute in Hrec; by injection Hrec as <-|].
  by exists r.
Defined.

(** C8, as stated, fails: a fetch for a job that has no cache entry and no
    hash is a case in which nothing is to be returned, and it is answered
    500, not 404, when the cache cannot be reached. *)
Lemma unreachable_cache_is_answered_500 :
  let w := set_redis {| up := false; data := ∅ |} world0 in
  cached "job-1" w = None
  ∧ job_record "job-1" w = None
  ∧ (serve (get_results "job-1") w).1
    = Some {| code := 500; payload := ErrorMessage unreachable |}
  ∧ (serve (get_results "job-1") w).1
    ≠ Some {| code := 404; payload := ErrorMessage "Results not found" |}.
Proof. by vm_compute. Qed.

(** *** The temporary container *)

(** The file route, outcome by outcome: what the handler's promise does,
    what was sent, and the containers it leaves. *)
Lemma get_file_outcome w imageName filePath :
  let out := get_file imageName filePath (set_res None w) in
  let removed :=
    delete (created (docker w))
      (<[created (docker w) := imageName]> (containers (docker w))) in
  match images (docker w) !! imageName with
  | None =>
      out.1 = Some (Normal ())
      ∧ res out.2 = Some {| code := 404; payload := ErrorMessage "no such image" |}
      ∧ containers (docker out.2) = containers (docker w)
  | Some img =>
      match filePath ≫= λ p, archives img !! p with
      | None =>
          out.1 = Some (Normal ())
          ∧ res out.2
            = Some {| code := 404;
                      payload := ErrorMessage
                                   "could not find the file in the container" |}
          ∧ containers (docker out.2) = removed
      | Some t =>
          match ending t with
          | Finish =>
              out.1 = Some (Normal ())
              ∧ res out.2
                = Some {| code := 200;
                          payload := FileData (head (to_record <$> entries t)) |}
              ∧ containers (docker out.2) = removed
          | ExtractError message =>
              out.1 = Some (Normal ())
              ∧ res out.2
                = Some {| code := 404; payload := ErrorMessage message |}
              ∧ containers (docker out.2) = removed
          | Uncaught =>
              out.1 = None ∧ res out.2 = None
              ∧ containers (docker out.2)
                = <[created (docker w) := imageName]> (containers (docker w))
          end
      end
  end.
Proof.
  pose proof (lookup_insert_eq (containers (docker w)) (created (docker w))
                imageName) as Hnew.
  unfold get_file, try_catch, try_finally, getFileContents.
  unfold mbind, M_bind, createContainer. cbn.
  destruct (images (docker w) !! imageName) as [img|] eqn:Himg; cbn;
    [|unfold send; cbn; done].
  unfold getArchive, container_remove, extractTarStream, send, throw, exit,
    mret, M_ret.
  cbn. rewrite Hnew. cbn. rewrite Himg.
  destruct filePath as [p|]; cbn; [|by rewrite Hnew].
  destruct (archives img !! p) as [t|]; cbn; [|by rewrite Hnew].
  destruct (ending t); cbn; rewrite ?Hnew; done.
Qed.

(** The file route removes the container it creates on every exit path of
    a request it answers. *)
Lemma get_file_removes_container w imageName filePath :
  containers (docker w) !! created (docker w) = None →
  is_Some (serve (get_file imageName filePath) w).1 →
  containers (docker (serve (get_file imageName filePath) w).2)
  = containers (docker w).
Proof.
  intros Hfresh. unfold serve. cbn [fst snd].
  pose proof (get_file_outcome w imageName filePath) as Hout. cbv zeta in Hout.
  rewrite delete_insert_id in Hout by done.
  destruct (images (docker w) !! imageName) as [img|]; [|by intros _; apply Hout].
  destruct (filePath ≫= _) as [t|]; [|by intros _; apply Hout].
  destruct (ending t); try (by intros _; apply Hout).
  destruct Hout as (_ & -> & _). by intros [? ?].
Qed.

Lemma bind_normal {A B} (m : M A) (f : A → M B) w a w' :
  m w = (Some (Normal a), w') → (m ≫= f) w = f a w'.
Proof. unfold mbind, M_bind. by intros ->. Qed.

Lemma bind_throw {A B} (m : M A) (f : A → M B) w e w' :
  m w = (Some (Throw e), w') → (m ≫= f) w = (Some (Throw e), w').
Proof. unfold mbind, M_bind. by intros ->. Qed.

Lemma bind_exit {A B} (m : M A) (f : A → M B) w w' :
  m w = (None, w') → (m ≫= f) w = (None, w').
Proof. unfold mbind, M_bind. by intros ->. Qed.

Lemma createContainer_known n img w :
  images (docker w) !! n = Some img →
  createContainer (Some n) w
  = (Some (Normal (created (docker w))),
     set_docker {| images := images (docker w);
                   containers := <[created (docker w) := n]> (containers (docker w));
                   created := S (created (docker w)) |} w).
Proof. unfold createContainer. by intros ->. Qed.

Lemma listFiles_no_path n img c p w :
  containers (docker w) !! c = Some n →
  images (docker w) !! n = Some img →
  archives img !! p = None →
  listFiles c p w
  = (Some (Throw "could not find the file in the container"), w).
Proof.
  intros Hc Himg Hp. unfold listFiles. apply bind_throw.
  unfold getArchive. rewrite Hc. cbn. by rewrite Himg, Hp.
Qed.

(** C2, at the failing input: when the listing of [/app] throws, control
    goes from [listFiles] to the [catch] block and [container.remove()] is
    skipped: the container created for the job is still there when the job
    has been marked failed. *)
Theorem failed_listing_leaves_container
    (w : World) (jobData : JobData) (n : string) (img : Image) :
  job_imageUrl jobData = Some n →
  images (docker w) !! n = Some img →
  archives img !! "/app" = None →
  containers (docker (processJob jobData w).2)
  = <[created (docker w) := n]> (containers (docker w)).
Proof.
  intros Hn Himg Happ. unfold processJob, try_catch. rewrite Hn.
  erewrite bind_normal; [|by unfold docker_pull; cbn; rewrite Himg].
  erewrite bind_normal; [|by unfold image_inspect; cbn; rewrite Himg].
  erewrite bind_normal; [|by apply (createContainer_known n img)].
  erewrite bind_throw;
    [|eapply listFiles_no_path; [apply lookup_insert_eq|exact Himg|exact Happ]].
  unfold jobQueue_hset. cbn. by destruct (up (jobQueue w)).
Qed.

Lemma failed_listing_leaves_container_witness :
  let w := run world0 [Submit (Some "alpine:latest") "job-1"; Work] in
  containers (docker w) = {[ 0 := "alpine:latest" ]}
  ∧ (status <$> job_record "job-1" w) = Some (Some "failed").
Proof.
  split; [|vm_compute; reflexivity].
  change (containers (docker
            (processJob {| job_imageUrl := Some "alpine:latest";
                           job_jobId := "job-1" |}
               (set_background []
                  (serve (post_inspect (Some "alpine:latest") "job-1") world0).2)).2)
          = {[ 0 := "alpine:latest" ]}).
  rewrite (failed_listing_leaves_container _ _ "alpine:latest" alpine_image);
    vm_compute; reflexivity.
Defined.
End ServerTheory.

Module FrontendTheory.
Import TreeBuilder Frontend.

(** Without a search term the memo hands back the array it was given and
    touches no node. *)
Lemma filteredFiles_empty_term fuel files h :
  filteredFiles fuel (Some files) "" h = Some (files, h).
Proof. reflexivity. Qed.

(** C9, at the failing input: the copy [[...inspectionData.files]] protects
    the top-level array only. Searching the sample tree for "main" assigns
    the filtered array to [children] of the directory object itself, so the
    tree [inspectionData.files] denotes has lost [util.js]: the unfiltered
    baseline is gone. *)
Theorem filter_prunes_the_original_tree :
  let files := (parse_nodes sample_tree []).1 in
  let h := (parse_nodes sample_tree []).2 in
  snapshots 3 h files = Some sample_tree
  ∧ ∃ out h',
      filteredFiles 3 (Some files) "main" h = Some (out, h')
      ∧ snapshots 3 h' out = Some pruned_tree
      ∧ snapshots 3 h' files = Some pruned_tree
      ∧ snapshots 3 h' files ≠ snapshots 3 h files.
Proof.
  cbv zeta. split; [vm_compute; reflexivity|].
  eexists _, _. split; [vm_compute; reflexivity|].
  split; [vm_compute; reflexivity|].
  split; [vm_compute; reflexivity|].
  vm_compute. discriminate.
Qed.

End FrontendTheory.

Module TreeBuilderShape.
Import PosixPath TreeBuilder.

(** *** Paths that do not start at the root *)

Lemma text_inj (a b : list ascii) : text a = text b → a = b.
Proof.
  intros H. apply (f_equal chars) in H. unfold chars, text in H.
  by rewrite !String.list_ascii_of_string_of_list_ascii in H.
Qed.

Lemma dirname_root_rooted (p : string) : dirname p = "/" → rooted p = true.
Proof.
  unfold dirname, rooted. destruct (chars p) as [|c0 tl]; [done|].
  destruct (dirname_scan (reverse tl) (length tl) true) as [e|] eqn:Hscan.
  - destruct (is_slash c0) eqn:Hc0; [done|]. cbn [andb].
    apply PosixPathTheory.dirname_scan_slash in Hscan as (j & Hj & _ & ->);
      [|by rewrite length_reverse].
    rewrite length_reverse in Hj.
    destruct (length tl - j) as [|e] eqn:He; [lia|].
    change "/" with (text [slash]). intros Heq%text_inj.
    cbn [take] in Heq. injection Heq as -> _.
    unfold is_slash in Hc0. by rewrite bool_decide_true in Hc0.
  - by destruct (is_slash c0).
Qed.

Lemma step_unrooted (f : FileRecord) :
  rooted (file_path f) = false →
  dirname (file_path f) ∉ object_prototype →
  step init f = Normal init.
Proof.
  intros Hf Hown. apply TreeBuilderTheory.step_missing_parent.
  apply TreeBuilderTheory.pathMap_get_None. split; [|done]. cbn [init pathMap].
  apply lookup_singleton_ne. intros Heq. symmetry in Heq.
  apply dirname_root_rooted in Heq. congruence.
Qed.

Lemma loop_unrooted (files : list FileRecord) :
  Forall (λ f, rooted (file_path f) = false) files →
  ¬ inherited_parent files →
  loop init files = Normal init.
Proof.
  unfold inherited_parent.
  induction 1 as [|f files Hf _ IH]; intros Hown; cbn [loop]; [done|].
  rewrite Exists_cons in Hown.
  rewrite step_unrooted by tauto. apply IH. tauto.
Qed.

(** Records with relative paths build nothing: the tree is empty, unless
    one of the parent paths names an inherited property, and then the
    build throws. *)
Lemma unrooted_tree (files : list FileRecord) :
  Forall (λ f, rooted (file_path f) = false) files →
  (buildFileTree files).2
  = if decide (inherited_parent files)
    then Throw "Cannot read properties of undefined (reading 'push')"
    else Normal [].
Proof.
  intros Hfiles. case_decide as Hin.
  - by apply TreeBuilderTheory.buildFileTree_inherited_parent.
  - unfold buildFileTree. cbn [snd]. rewrite loop_unrooted; [done|..].
    + by rewrite TreeBuilderTheory.sort_by_depth_perm.
    + unfold inherited_parent in *.
      by rewrite TreeBuilderTheory.sort_by_depth_perm.
Qed.

(** X1. An archive whose entry names are all relative gives no tree. The
    only parent path the loop starts with is "/", and [dirname] of a path
    that does not begin with a separator is never "/": every record is
    skipped and the tree is empty, unless the parent path of some record
    names a property every object inherits ([constructor/x],
    [toString/readme]); then, and only then, the build throws. *)
Theorem unrooted_records_give_no_tree (files : list FileRecord) :
  Forall (λ f, rooted (file_path f) = false) files →
  (inherited_parent files →
   (buildFileTree files).2
   = Throw "Cannot read properties of undefined (reading 'push')")
  ∧ (¬ inherited_parent files → (buildFileTree files).2 = Normal []).
Proof.
  intros Hfiles. rewrite unrooted_tree by done.
  split; intros Hin; by case_decide.
Qed.

Lemma unrooted_records_give_no_tree_witness :
  (buildFileTree [dir "app/"; file "app/index.js" 1536]).2 = Normal []
  ∧ (buildFileTree [dir "constructor/"; file "constructor/index.js" 1536]).2
    = Throw "Cannot read properties of undefined (reading 'push')".
Proof.
  split.
  - apply unrooted_records_give_no_tree; [repeat constructor|].
    compute_done.
  - apply unrooted_records_give_no_tree; [repeat constructor|].
    compute_done.
Defined.

(** *** What [push_child] and [step] do to the objects *)

Lemma push_child_inv parent node os os' :
  push_child parent node os = Normal os' →
  ∃ o cs, os !! parent = Some o ∧ children o = Some cs
          ∧ os' = <[parent := {| name := name o; path := path o; size := size o;
                                 type := type o; modified := modified o;
                                 children := Some (cs ++ [node]) |}]> os.
Proof.
  unfold push_child. destruct (os !! parent) as [o|]; [|done].
  destruct (children o) as [cs|] eqn:Hcs; [|done].
  intros [= <-]. by exists o, cs.
Qed.

Lemma push_child_lookup parent node os os' i o :
  push_child parent node os = Normal os' → os !! i = Some o →
  ∃ o', os' !! i = Some o' ∧ same_fields o o'
        ∧ (is_Some (children o') ↔ is_Some (children o))
        ∧ (i ≠ parent → o' = o).
Proof.
  intros (p & cs & Hp & Hcs & ->)%push_child_inv Hi.
  destruct (decide (i = parent)) as [->|Hne].
  - rewrite list_lookup_insert_eq by by eapply lookup_lt_Some.
    eexists. split; [done|]. replace o with p by congruence.
    split_and!; [by repeat split| |done]. cbn. rewrite Hcs. split; by eexists.
  - rewrite list_lookup_insert_ne by done. exists o.
    split_and!; [done|by repeat split|done|done].
Qed.

(** A step that does not throw either skips the record or allocates one
    object for it and pushes its reference on one parent. *)
Lemma step_inv st f st' :
  step st f = Normal st' →
  (st' = st ∧ pathMap st !! dirname (file_path f) = None)
  ∨ ∃ parent node,
      is_Some (pathMap_get (pathMap st) (dirname (file_path f)))
      ∧ <[file_path f := length (objs st)]> (pathMap st)
          !! dirname (file_path f) = Some parent
      ∧ name node = file_name f ∧ path node = file_path f
      ∧ size node = SizeFormatter.formatSize (file_size f)
      ∧ type node = file_type f ∧ modified node = file_modified f
      ∧ (is_Some (children node) ↔ file_type f = Directory)
      ∧ push_child parent (length (objs st)) (objs st ++ [node]) = Normal (objs st')
      ∧ pathMap st' = <[file_path f := length (objs st)]> (pathMap st).
Proof.
  unfold step.
  destruct (pathMap_get (pathMap st) _) as [p0|] eqn:Hp0;
    [|intros [= <-]; left; split;
      [done|by apply TreeBuilderTheory.pathMap_get_None in Hp0 as [? _]]].
  destruct (pathMap_get (<[_:=_]> _) _) as [[parent|]|] eqn:Hparent; [|done..].
  apply TreeBuilderTheory.pathMap_get_stored in Hparent.
  destruct (push_child _ _ _) as [os|] eqn:Hpush; [|done].
  intros [= <-]. right. eexists parent, _. split; [by eexists|].
  split; [done|]. cbn. split_and!; try done.
  all: destruct (decide (file_type f = Directory)) as [Hd|Hne]; try done.
  all: try by eexists.
  cbn. split; [by intros [? [=]]|done].
Qed.

(** *** Every node is built from a record *)

Lemma all_nodes_unfold P a b c d e cs :
  all_nodes P (Node a b c d e cs)
  ↔ P (Node a b c d e cs)
    ∧ match cs with Some l => Forall (all_nodes P) l | None => True end.
Proof.
  cbn [all_nodes]. destruct cs as [l|]; [|done].
  apply and_iff_compat_l. induction l as [|x l IH].
  - split; [constructor|done].
  - rewrite Forall_cons. by rewrite IH.
Qed.

Lemma reify_all files i os :
  Forall (obj_from files) os →
  map_Forall (λ _ t, all_nodes (built_from files) t) (reify_from i os).
Proof.
  intros Hos. revert i. induction Hos as [|o os Ho _ IH]; intros i;
    cbn [reify_from]; [apply map_Forall_empty|].
  apply map_Forall_insert_2; [|apply IH].
  unfold to_tree. apply all_nodes_unfold.
  destruct Ho as (f & Hf & Hn & Hp & Hs & Ht & Hm & Hc). split.
  - exists f, (match children o with
               | Some cs => Some (omap (λ c : nat, reify_from (S i) os !! c) cs)
               | None => None
               end).
    split; [done|]. unfold node_of.
    rewrite Hn, Hp, Hs, Ht, Hm. split; [reflexivity|].
    rewrite <- Hc. destruct (children o) as [cs|].
    + split; intros _; by eexists.
    + split; intros [? ?]; done.
  - destruct (children o) as [cs|]; [|done].
    apply Forall_forall. intros t Ht'.
    apply list_elem_of_omap in Ht' as (c & _ & Hc').
    by apply (IH (S i) c).
Qed.

Lemma obj_from_push files o cs node :
  obj_from files o → children o = Some cs →
  obj_from files {| name := name o; path := path o; size := size o;
                    type := type o; modified := modified o;
                    children := Some (cs ++ [node]) |}.
Proof.
  intros (f & Hf & Hn & Hp & Hs & Ht & Hm & Hc) Hcs. exists f. cbn.
  split_and!; try done. rewrite <- Hc, Hcs. split; intros _; by eexists.
Qed.

Lemma step_objs_from files st f st' :
  f ∈ files → objs_from files st → step st f = Normal st' →
  objs_from files st'.
Proof.
  intros Hf (o0 & rest & Hobjs & Hroot & Hrest) Hstep.
  apply step_inv in Hstep
    as [[-> _]|(parent & node & _ & _ & Hn & Hp & Hs & Ht & Hm & Hc & Hpush & _)].
  { by exists o0, rest. }
  assert (Hnode : obj_from files node) by (exists f; done).
  apply push_child_inv in Hpush as (o & cs & Ho & Hcs & Hos).
  unfold objs_from. rewrite Hos. clear Hos.
  rewrite Hobjs in Ho |- *. destruct parent as [|k]; cbn in Ho |- *.
  - injection Ho as <-. eexists _, _. split; [done|].
    split; [by eexists|]. apply Forall_app. split; [done|by constructor].
  - eexists _, _. split; [done|]. split; [done|].
    apply Forall_insert; [apply Forall_app; split; [done|by constructor]|].
    apply obj_from_push; [|done].
    assert (Hall : Forall (obj_from files) (rest ++ [node]))
      by (apply Forall_app; split; [done|by constructor]).
    rewrite Forall_lookup in Hall. by apply (Hall k).
Qed.

Lemma loop_objs_from files st l st' :
  (∀ f, f ∈ l → f ∈ files) → objs_from files st → loop st l = Normal st' →
  objs_from files st'.
Proof.
  revert st. induction l as [|f l IH]; intros st Hl Hst; cbn [loop].
  - by intros [= <-].
  - destruct (step st f) as [st1|] eqn:Hstep; [|done].
    apply IH; [set_solver|]. eapply step_objs_from; [|done..]. set_solver.
Qed.

Lemma root_children_from files st :
  objs_from files st → Forall (all_nodes (built_from files)) (root_children st).
Proof.
  intros (o0 & rest & Hobjs & [cs Hcs] & Hrest). unfold root_children.
  rewrite Hobjs. cbn [reify_from]. rewrite lookup_insert_eq.
  unfold to_tree. rewrite Hcs. cbn.
  apply Forall_forall. intros t (c & _ & Hc)%list_elem_of_omap.
  by apply (reify_all files 1 rest Hrest c).
Qed.

(** X4. Every node of the tree, at every level, carries the name, path,
    formatted size, type and date of one of the records given, and has a
    [children] array exactly when that record is a directory: the builder
    makes up no node. *)
Theorem every_node_comes_from_a_record (files : list FileRecord) tree :
  (buildFileTree files).2 = Normal tree →
  Forall (all_nodes (built_from files)) tree.
Proof.
  unfold buildFileTree. cbn [snd].
  destruct (loop init (sort_by_depth files)) as [st|] eqn:Hloop; [|done].
  intros [= <-]. apply root_children_from.
  eapply loop_objs_from; [|..|exact Hloop].
  - intros f. by rewrite TreeBuilderTheory.sort_by_depth_perm.
  - exists root, []. split; [done|]. split; [by eexists|constructor].
Qed.

Lemma every_node_comes_from_a_record_witness :
  Forall (all_nodes (built_from [file "/a/b/c.txt" 10; dir "/a/b"; dir "/a"]))
    (abc_tree (dir "/a") (dir "/a/b") (file "/a/b/c.txt" 10)).
Proof.
  apply every_node_comes_from_a_record. vm_compute. reflexivity.
Defined.

(** *** The top level of the tree *)

Lemma reify_lookup i os j o :
  os !! j = Some o →
  ∃ built, reify_from i os !! (i + j) = Some (to_tree o built).
Proof.
  revert i j. induction os as [|o' os IH]; intros i j; [done|].
  cbn [reify_from]. destruct j as [|j]; cbn.
  - intros [= ->]. rewrite Nat.add_0_r, lookup_insert_eq. by eexists.
  - intros Hj. rewrite lookup_insert_ne by lia.
    replace (i + S j) with (S i + j) by lia. by apply IH.
Qed.

Lemma top_level_snoc done f :
  top_level (done ++ [f])
  = top_level done ++ (if decide (dirname (file_path f) = "/") then [f] else []).
Proof.
  unfold top_level. rewrite filter_app. f_equal.
Qed.

Lemma step_top_inv done st f st' :
  file_path f ≠ "/" → top_inv done st → step st f = Normal st' →
  top_inv (done ++ [f]) st'.
Proof.
  intros Hf (Hroot & Honly & o0 & cs & Ho0 & Hcs & Htop) Hstep.
  unfold top_inv. rewrite top_level_snoc.
  apply step_inv in Hstep
    as [[-> Hnone]|(parent & node & _ & Hparent & Hn & Hp & Hs & Ht & Hm & _
                    & Hpush & Hmap)].
  { rewrite decide_False by congruence. rewrite app_nil_r.
    split_and!; [done..|]. by exists o0, cs. }
  assert (Hlen : 0 < length (objs st)) by by eapply lookup_lt_Some.
  assert (Hold : ∀ i o, objs st !! i = Some o →
            ∃ o', objs st' !! i = Some o' ∧ same_fields o o'
                  ∧ (i ≠ parent → o' = o)).
  { intros i o Hi.
    destruct (push_child_lookup _ _ _ _ i o Hpush) as (o' & ? & ? & _ & ?);
      [by apply lookup_app_l_Some|]. by exists o'. }
  assert (Hkeep : Forall2 (λ id f0, 0 < id ∧ ∃ o, objs st' !! id = Some o
                                               ∧ fields_of f0 o)
                    cs (top_level done)).
  { eapply Forall2_impl; [exact Htop|]. intros id f0 (Hid & o & Ho & Hfo).
    split; [done|]. destruct (Hold id o Ho) as (o' & Ho' & Hsame & _).
    exists o'. split; [done|]. unfold fields_of in *.
    destruct Hsame as (E1 & E2 & E3 & E4 & E5). by rewrite E1, E2, E3, E4, E5. }
  rewrite Hmap. split_and!.
  - by rewrite lookup_insert_ne.
  - intros k. destruct (decide (k = file_path f)) as [->|Hk].
    + rewrite lookup_insert_eq. intros [= ?]. lia.
    + rewrite lookup_insert_ne by done. apply Honly.
  - case_decide as Hdir.
    + rewrite Hdir, lookup_insert_ne, Hroot in Hparent by done.
      injection Hparent as <-.
      apply push_child_inv in Hpush as (o & cs' & Ho & Hcs' & Hos).
      rewrite lookup_app_l, Ho0 in Ho by done. injection Ho as <-.
      rewrite Hcs in Hcs'. injection Hcs' as <-.
      eexists _, (cs ++ [length (objs st)]). rewrite Hos.
      split; [apply list_lookup_insert_eq; rewrite length_app; lia|].
      split; [done|]. rewrite <- Hos.
      apply Forall2_app; [done|]. repeat constructor; [done|].
      exists node. split; [|done].
      rewrite Hos, list_lookup_insert_ne by lia.
      by rewrite lookup_app_r, Nat.sub_diag by done.
    + rewrite app_nil_r.
      assert (Hne : 0 ≠ parent).
      { intros <-. apply Hdir, Honly.
        destruct (decide (dirname (file_path f) = file_path f)) as [Heq|Hneq].
        - rewrite Heq, lookup_insert_eq in Hparent. injection Hparent as ?. lia.
        - by rewrite lookup_insert_ne in Hparent. }
      destruct (Hold 0 o0 Ho0) as (o' & Ho' & _ & Hsame).
      rewrite (Hsame Hne) in Ho'. by exists o0, cs.
Qed.

Lemma loop_top_inv done st l st' :
  (∀ f, f ∈ l → file_path f ≠ "/") → top_inv done st →
  loop st l = Normal st' → top_inv (done ++ l) st'.
Proof.
  revert done st. induction l as [|f l IH]; intros done st Hl Hst; cbn [loop].
  - intros [= <-]. by rewrite app_nil_r.
  - destruct (step st f) as [st1|] eqn:Hstep; [|done]. intros Hloop.
    rewrite (assoc_L _ done [f] l : done ++ f :: l = (done ++ [f]) ++ l).
    eapply IH; [set_solver| |done].
    eapply step_top_inv; [|done..]. set_solver.
Qed.

Lemma root_children_top done st :
  top_inv done st →
  Forall2 (λ n f, ∃ cs, n = node_of f cs) (root_children st) (top_level done).
Proof.
  intros (_ & _ & o0 & cs & Ho0 & Hcs & Htop). unfold root_children.
  destruct (objs st) as [|o rest] eqn:Hobjs; [done|].
  cbn in Ho0. injection Ho0 as ->. cbn [reify_from].
  rewrite lookup_insert_eq. unfold to_tree at 1. rewrite Hcs. cbn.
  clear Hcs. induction Htop as [|id f ids fs (Hid & o & Ho & Hf) _ IH]; [constructor|].
  destruct id as [|j]; [lia|]. cbn in Ho.
  destruct (reify_lookup 1 rest j o Ho) as (built & Hb).
  cbn [omap list_omap]. cbn in Hb. rewrite Hb. constructor; [|exact IH].
  destruct Hf as (Hn & Hp & Hs & Ht & Hm). unfold to_tree, node_of.
  rewrite Hn, Hp, Hs, Ht, Hm. by eexists.
Qed.

(** X3. When no record sits at the path "/" itself, the top level of the tree
    is, in the order the sorted array has them, one node for each record
    whose parent path is "/": same name, path, formatted size, type and
    date, nothing more and nothing less. *)
Theorem top_level_lists_the_root_records (files : list FileRecord) tree :
  (∀ f, f ∈ files → file_path f ≠ "/") →
  (buildFileTree files).2 = Normal tree →
  Forall2 (λ n f, ∃ cs, n = node_of f cs) tree
    (top_level (buildFileTree files).1).
Proof.
  intros Hfiles. unfold buildFileTree. cbn [fst snd].
  destruct (loop init (sort_by_depth files)) as [st|] eqn:Hloop; [|done].
  intros [= <-]. apply root_children_top.
  apply (loop_top_inv [] init); [| |done].
  - intros f Hf. apply Hfiles. by rewrite <- TreeBuilderTheory.sort_by_depth_perm.
  - split_and!; [done| |].
    + intros k Hk. cbn in Hk. by apply lookup_singleton_Some in Hk as [<- _].
    + exists root, []. split_and!; [done..|constructor].
Qed.

Lemma top_level_lists_the_root_records_witness :
  Forall2 (λ n f, ∃ cs, n = node_of f cs)
    [node_of (file "/y" 1) None; node_of (dir "/x") (Some [node_of (file "/x/z" 2) None])]
    [file "/y" 1; dir "/x"].
Proof.
  apply (top_level_lists_the_root_records [file "/x/z" 2; file "/y" 1; dir "/x"]).
  - intros f Hf.
    repeat (apply elem_of_cons in Hf as [->|Hf]; [discriminate|]).
    by apply elem_of_nil in Hf.
  - vm_compute. reflexivity.
Defined.

(** *** A record under a record that is not a directory *)

Lemma sort_pair a b :
  depth (file_path a) < depth (file_path b) →
  sort_by_depth [a; b] = [a; b] ∧ sort_by_depth [b; a] = [a; b].
Proof.
  intros Hd. unfold sort_by_depth. cbn [foldr insert_sorted].
  rewrite decide_True by lia. rewrite decide_False by lia. done.
Qed.

(** X5. A record whose parent path is the path of a record that is not a
    directory makes the build throw: the parent's node has no [children]
    array to push on. *)
Theorem record_under_a_file_throws (a b : FileRecord) (files : list FileRecord) :
  file_type a = File →
  dirname (file_path a) = "/" →
  file_path a ≠ "/" → file_path a ≠ "//" →
  dirname (file_path b) = file_path a →
  files ≡ₚ [a; b] →
  (buildFileTree files).2
  = Throw "Cannot read properties of undefined (reading 'push')".
Proof.
  intros Ha Hda Hroot Hroot2 Hdb Hperm.
  assert (Hdot : file_path a ≠ ".") by (intros Heq; by rewrite Heq in Hda).
  assert (Hdepth : depth (file_path a) < depth (file_path b)).
  { apply TreeBuilderTheory.below_deeper.
    by apply (PosixPathTheory.dirname_prefix (file_path b) (file_path a)). }
  assert (Hne : file_path b ≠ file_path a) by (intros Heq; rewrite Heq in Hdepth; lia).
  assert (Hsort : sort_by_depth files = [a; b]).
  { destruct (sort_pair a b Hdepth) as [Hab Hba].
    symmetry in Hperm. apply permutations_Permutation in Hperm.
    cbv [permutations interleave fmap list_fmap mbind list_bind app] in Hperm.
    repeat (apply elem_of_cons in Hperm as [->|Hperm]; [done|]).
    by apply elem_of_nil in Hperm. }
  unfold buildFileTree. cbn [snd]. rewrite Hsort. cbn [loop].
  unfold step at 1, pathMap_get. cbn [init pathMap objs]. rewrite Hda.
  rewrite lookup_singleton_eq. rewrite lookup_insert_ne by done.
  rewrite lookup_singleton_eq. cbn [length app push_child lookup list_lookup root children].
  rewrite Ha. rewrite decide_False by done.
  unfold step, pathMap_get. cbn [pathMap objs]. rewrite Hdb.
  rewrite lookup_insert_eq. rewrite lookup_insert_ne by done.
  rewrite lookup_insert_eq. done.
Qed.

Lemma record_under_a_file_throws_witness :
  (buildFileTree [file "/a/b" 2; file "/a" 1]).2
  = Throw "Cannot read properties of undefined (reading 'push')".
Proof.
  apply (record_under_a_file_throws (file "/a" 1) (file "/a/b" 2));
    [reflexivity|reflexivity|discriminate|discriminate|reflexivity|].
  apply Permutation_swap.
Defined.
End TreeBuilderShape.

Module SizeFormatterEdges.
Import SizeFormatter.
Open Scope Z_scope.

(** X6. Rounding can carry the printed value up to 1024.0 without moving to
    the next unit: the unit is chosen before the value is rounded. Every
    size at most a twentieth of a unit step short of the next unit is
    printed as 1024.0 of the smaller one. *)
Theorem rounding_prints_1024_in_the_smaller_unit (k : nat) (size : Z) :
  (1 ≤ k ≤ 2)%nat →
  1024 ^ Z.of_nat k * 20479 ≤ 20 * size < 1024 ^ Z.of_nat k * 20480 →
  formatSize size = "1024.0" +:+ default "" (units !! k).
Proof.
  intros Hk Hsize.
  assert (Hunit : spec_unit size = k).
  { unfold spec_unit.
    destruct k as [|[|[|k]]]; [| | |lia]; cbn in Hsize;
      repeat match goal with
      | |- context [ (?a <? ?b)%Z ] => destruct (Z.ltb_spec a b)
      end; try reflexivity; lia. }
  unfold formatSize. rewrite SizeFormatterTheory.while_loop_unit, Hunit.
  unfold toFixed1. destruct (Z.ltb_spec size 0) as [Hneg|_].
  { assert (0 < 1024 ^ Z.of_nat k) by (apply Z.pow_pos_nonneg; lia). lia. }
  assert (Hten : tenths size (1024 ^ Z.of_nat k) = 10240).
  { assert (Hd : 0 < 1024 ^ Z.of_nat k) by (apply Z.pow_pos_nonneg; lia).
    pose proof (SizeFormatterTheory.tenths_nearest size _ Hd) as Hn. nia. }
  rewrite Hten. destruct k as [|[|[|k]]]; [reflexivity..|lia].
Qed.

Lemma rounding_prints_1024_in_the_smaller_unit_witness :
  formatSize 1048575 = "1024.0KB".
Proof.
  apply (rounding_prints_1024_in_the_smaller_unit 1 1048575); [lia|].
  split; vm_compute; congruence.
Defined.

End SizeFormatterEdges.

Module ServiceRuns.
Import PosixPath TreeBuilder Server ServerTheory.

(** *** A job that goes through *)

Lemma broken_false t : broken t = false ↔ ending t = Finish.
Proof. unfold broken. by destruct (ending t). Qed.

(** The listing of an archive that decodes is what the tree builder makes
    of its records, a tree or an error. *)
Lemma listFiles_decodes n img c p t w :
  containers (docker w) !! c = Some n →
  images (docker w) !! n = Some img →
  archives img !! p = Some t →
  broken t = false →
  listFiles c p w
  = (Some match (buildFileTree (to_record <$> entries t)).2 with
          | Normal tree => Normal tree
          | Throw e => Throw e
          end, w).
Proof.
  intros Hc Himg Hp Ht%broken_false. unfold listFiles.
  erewrite bind_normal;
    [|unfold getArchive; rewrite Hc; cbn; by rewrite Himg, Hp].
  erewrite bind_normal; [|unfold extractTarStream; by rewrite Ht].
  by destruct (buildFileTree _).2.
Qed.

Lemma listFiles_exports n img c p t tree w :
  containers (docker w) !! c = Some n →
  images (docker w) !! n = Some img →
  archives img !! p = Some t →
  broken t = false →
  (buildFileTree (to_record <$> entries t)).2 = Normal tree →
  listFiles c p w = (Some (Normal tree), w).
Proof.
  intros Hc Himg Hp Ht Htree.
  rewrite (listFiles_decodes n img c p t) by done. by rewrite Htree.
Qed.

Lemma container_remove_live c n w :
  containers (docker w) !! c = Some n →
  container_remove c w
  = (Some (Normal ()),
     set_docker {| images := images (docker w);
                   containers := delete c (containers (docker w));
                   created := created (docker w) |} w).
Proof. unfold container_remove. by intros ->. Qed.

(** The world a job leaves when every step goes through. *)
Lemma processJob_goes_through jobData n img t tree w :
  job_imageUrl jobData = Some n →
  images (docker w) !! n = Some img →
  archives img !! "/app" = Some t →
  broken t = false →
  (buildFileTree (to_record <$> entries t)).2 = Normal tree →
  up (redis w) = true → up (jobQueue w) = true →
  containers (docker w) !! created (docker w) = None →
  let r := {| manifest := inspect img; files := tree |} in
  let w' := (processJob jobData w).2 in
  containers (docker w') = containers (docker w)
  ∧ images (docker w') = images (docker w)
  ∧ clock w' = clock w
  ∧ up (redis w') = true ∧ up (jobQueue w') = true
  ∧ data (redis w') !! result_key (job_jobId jobData) = Some (clock w + 3600, r)
  ∧ (∃ job, job_record (job_jobId jobData) w' = Some job
            ∧ status job = Some "completed" ∧ result job = Some r)
  ∧ (processJob jobData w).1 = Some (Normal ()).
Proof.
  intros Hn Himg Happ Ht Htree Hredis Hqueue Hfresh r w'.
  subst w'. unfold processJob, try_catch. rewrite Hn.
  erewrite bind_normal; [|by unfold docker_pull; cbn; rewrite Himg].
  erewrite bind_normal; [|by unfold image_inspect; cbn; rewrite Himg].
  erewrite bind_normal; [|by apply (createContainer_known n img)].
  erewrite bind_normal;
    [|eapply listFiles_exports; [apply lookup_insert_eq|done..]].
  erewrite bind_normal; [|eapply container_remove_live; apply lookup_insert_eq].
  cbn [set_docker docker images containers created].
  rewrite delete_insert_id by done.
  unfold mbind, M_bind, redis_setex, jobQueue_hset, job_record. cbn.
  rewrite Hredis. cbn. rewrite Hqueue. cbn.
  rewrite !lookup_insert_eq. split_and!; try done.
  eexists. split; [done|]. by cbn.
Qed.

(** *** Answers of the result and status routes *)

Lemma get_results_hit jobId r w :
  up (redis w) = true → cached jobId w = Some r →
  (serve (get_results jobId) w).1 = Some {| code := 200; payload := Results r |}.
Proof.
  intros Hredis Hhit. unfold serve, get_results, try_catch.
  erewrite bind_normal; [|unfold redis_get; cbn; rewrite Hredis; reflexivity].
  cbn. unfold cached in Hhit. by rewrite Hhit.
Qed.

Lemma get_results_miss jobId job r w :
  up (redis w) = true → cached jobId w = None → up (jobQueue w) = true →
  job_record jobId w = Some job → status job = Some "completed" →
  result job = Some r →
  (serve (get_results jobId) w).1 = Some {| code := 200; payload := Results r |}.
Proof.
  intros Hredis Hmiss Hqueue Hjob Hdone Hr. unfold serve, get_results, try_catch.
  erewrite bind_normal; [|unfold redis_get; cbn; rewrite Hredis; reflexivity].
  cbn. unfold cached in Hmiss. rewrite Hmiss.
  erewrite bind_normal;
    [|unfold jobQueue_hgetall; cbn; rewrite Hqueue; reflexivity].
  cbn. unfold job_record in Hjob. rewrite Hjob. cbn.
  rewrite Hdone, Hr. done.
Qed.

Section GoesThrough.
Context (jobData : JobData) (n : string) (img : Image) (t : TarStream)
        (tree : list FileNode) (w : World).
Hypothesis Hn : job_imageUrl jobData = Some n.
Hypothesis Himg : images (docker w) !! n = Some img.
Hypothesis Happ : archives img !! "/app" = Some t.
Hypothesis Ht : broken t = false.
Hypothesis Htree : (buildFileTree (to_record <$> entries t)).2 = Normal tree.
Hypothesis Hredis : up (redis w) = true.
Hypothesis Hqueue : up (jobQueue w) = true.
Hypothesis Hfresh : containers (docker w) !! created (docker w) = None.

(** X7. When the image resolves, its [/app] export decodes and the tree
    builds, the job ends [completed]: the same result sits in the cache
    and in the job hash, both routes serve it, and the container made for
    the listing is gone. *)
Theorem completed_job_is_served_from_both_stores :
  let r := {| manifest := inspect img; files := tree |} in
  let w' := (processJob jobData w).2 in
  cached (job_jobId jobData) w' = Some r
  ∧ (∃ job, job_record (job_jobId jobData) w' = Some job
            ∧ status job = Some "completed" ∧ result job = Some r)
  ∧ (serve (get_results (job_jobId jobData)) w').1
    = Some {| code := 200; payload := Results r |}
  ∧ (∃ e, (serve (get_status (job_jobId jobData)) w').1
          = Some {| code := 200;
                    payload := JobStatus (Some "completed") (Some r) e |})
  ∧ containers (docker w') = containers (docker w).
Proof.
  intros r w'.
  destruct (processJob_goes_through jobData n img t tree w)
    as (Hcont & _ & Hclock & Hredis' & Hqueue' & Hentry
        & (job & Hjob & Hst & Hres) & _);
    try done.
  fold w' in Hcont, Hclock, Hredis', Hqueue', Hentry, Hjob.
  assert (Hcached : cached (job_jobId jobData) w' = Some r).
  { unfold cached, live. rewrite Hentry, Hclock.
    assert (Hpos : 0 < 3600) by apply Nat.lt_0_succ.
    revert Hpos. generalize 3600. intros ttl Hpos.
    destruct (decide (clock w < clock w + ttl)); [done|lia]. }
  split; [done|]. split; [by exists job|]. split; [by apply get_results_hit|].
  split; [|done].
  eexists. rewrite (known_job_status _ job) by done. by rewrite Hst, Hres.
Qed.

(** X8. The cache entry of a completed job lasts 3600 seconds; the result
    route keeps answering with the same result after that, from the job
    hash. *)
Theorem result_outlives_its_cache_entry (seconds : nat) :
  let r := {| manifest := inspect img; files := tree |} in
  let w' := advance seconds (processJob jobData w).2 in
  (cached (job_jobId jobData) w' = None ↔ 3600 ≤ seconds)
  ∧ (serve (get_results (job_jobId jobData)) w').1
    = Some {| code := 200; payload := Results r |}.
Proof.
  intros r w'.
  destruct (processJob_goes_through jobData n img t tree w)
    as (_ & _ & Hclock & Hredis' & Hqueue' & Hentry
        & (job & Hjob & Hst & Hres) & _);
    try done.
  revert Hentry. generalize 3600. intros ttl Hentry.
  assert (Hcached : cached (job_jobId jobData) w'
                    = if decide (seconds < ttl) then Some r else None).
  { unfold cached, live, w'. cbn [advance set_clock clock redis].
    rewrite Hentry, Hclock.
    destruct (decide (clock w + seconds < clock w + ttl)),
      (decide (seconds < ttl)); try done; lia. }
  split.
  - rewrite Hcached. destruct (decide (seconds < ttl)); split; try done; lia.
  - destruct (decide (seconds < ttl)) as [Hs|Hs].
    + apply get_results_hit; [done|]. rewrite Hcached.
      by destruct (decide (seconds < ttl)).
    + eapply get_results_miss; try done; rewrite Hcached;
        by destruct (decide (seconds < ttl)).
Qed.
End GoesThrough.

Lemma completed_job_is_served_from_both_stores_witness :
  let w := (serve (post_inspect (Some "app:latest") "job-1") world0).2 in
  let jobData := {| job_imageUrl := Some "app:latest"; job_jobId := "job-1" |} in
  (serve (get_results "job-1") (processJob jobData w).2).1
  = Some {| code := 200;
            payload := Results {| manifest := alpine_inspect; files := [] |} |}.
Proof.
  intros w jobData.
  eapply (completed_job_is_served_from_both_stores jobData "app:latest" app_image
            _ [] w); vm_compute; reflexivity.
Defined.

Lemma result_outlives_its_cache_entry_witness :
  let w := (serve (post_inspect (Some "app:latest") "job-1") world0).2 in
  let jobData := {| job_imageUrl := Some "app:latest"; job_jobId := "job-1" |} in
  (serve (get_results "job-1") (advance 4000 (processJob jobData w).2)).1
  = Some {| code := 200;
            payload := Results {| manifest := alpine_inspect; files := [] |} |}.
Proof.
  intros w jobData.
  eapply (result_outlives_its_cache_entry jobData "app:latest" app_image
            _ [] w); vm_compute; reflexivity.
Defined.

(** *** A job whose image does not resolve *)

Lemma processJob_unresolvable jobData w :
  (job_imageUrl jobData ≫= λ n, images (docker w) !! n) = None →
  up (jobQueue w) = true →
  let w' := (processJob jobData w).2 in
  docker w' = docker w ∧ redis w' = redis w ∧ up (jobQueue w') = true
  ∧ (∃ job e, job_record (job_jobId jobData) w' = Some job
              ∧ status job = Some "failed" ∧ error job = Some e
              ∧ e ≠ "")
  ∧ (processJob jobData w).1 = Some (Normal ()).
Proof.
  intros Himg Hqueue w'. subst w'. unfold processJob, try_catch.
  erewrite bind_throw; [|unfold docker_pull; by rewrite Himg].
  unfold jobQueue_hset, job_record. rewrite Hqueue. cbn.
  split_and!; [done..| |done]. rewrite lookup_insert_eq. by eexists _, _.
Qed.

(** X9. When the engine cannot resolve the image reference (a missing one
    included), the job is marked [failed] with the engine's message; no
    container is created and the cache is not written. *)
Theorem unresolvable_image_fails_the_job (jobData : JobData) (w : World) :
  (job_imageUrl jobData ≫= λ n, images (docker w) !! n) = None →
  up (jobQueue w) = true →
  let w' := (processJob jobData w).2 in
  docker w' = docker w ∧ redis w' = redis w
  ∧ ∃ job e, job_record (job_jobId jobData) w' = Some job
             ∧ status job = Some "failed" ∧ error job = Some e.
Proof.
  intros Himg Hqueue.
  destruct (processJob_unresolvable jobData w Himg Hqueue)
    as (? & ? & _ & (job & e & ? & ? & ? & _) & _).
  split_and!; [done..|]. by exists job, e.
Qed.

Lemma unresolvable_image_fails_the_job_witness :
  ∃ job e,
    job_record "job-1"
      (processJob {| job_imageUrl := Some "definitely-not-a-real-image:doesnotexist";
                     job_jobId := "job-1" |} world0).2 = Some job
    ∧ status job = Some "failed" ∧ error job = Some e.
Proof.
  apply (unresolvable_image_fails_the_job
           {| job_imageUrl := Some "definitely-not-a-real-image:doesnotexist";
              job_jobId := "job-1" |} world0); reflexivity.
Defined.

(** *** A job whose export ends in an error nobody hears *)

Lemma listFiles_uncaught n img c p t w :
  containers (docker w) !! c = Some n →
  images (docker w) !! n = Some img →
  archives img !! p = Some t →
  ending t = Uncaught →
  listFiles c p w = (None, w).
Proof.
  intros Hc Himg Hp Ht. unfold listFiles.
  erewrite bind_normal;
    [|unfold getArchive; rewrite Hc; cbn; by rewrite Himg, Hp].
  apply bind_exit. unfold extractTarStream. by rewrite Ht.
Qed.

Lemma processJob_uncaught jobData n img t w :
  job_imageUrl jobData = Some n →
  images (docker w) !! n = Some img →
  archives img !! "/app" = Some t →
  ending t = Uncaught →
  processJob jobData w
  = (None,
     set_docker {| images := images (docker w);
                   containers := <[created (docker w) := n]> (containers (docker w));
                   created := S (created (docker w)) |} w).
Proof.
  intros Hn Himg Happ Ht. unfold processJob, try_catch. rewrite Hn.
  erewrite bind_normal; [|by unfold docker_pull; cbn; rewrite Himg].
  erewrite bind_normal; [|by unfold image_inspect; cbn; rewrite Himg].
  erewrite bind_normal; [|by apply (createContainer_known n img)].
  erewrite bind_exit; [done|].
  eapply listFiles_uncaught; [apply lookup_insert_eq|done..].
Qed.

(** X21. A started job whose image exports for [/app] an archive that ends
    in an error nothing is subscribed to never comes to an end: the
    process exits inside [listFiles]. Neither [catch] nor the statements
    after the listing run: no status is written (after a submission the
    job stays [pending]), nothing is cached, the container made for the
    listing is left behind, and what arrives afterwards finds no server. *)
Theorem uncaught_export_error_ends_the_process
    (jobData : JobData) (rest : list JobData) (n : string) (img : Image)
    (t : TarStream) (w : World) :
  background w = jobData :: rest →
  job_imageUrl jobData = Some n →
  images (docker w) !! n = Some img →
  archives img !! "/app" = Some t →
  ending t = Uncaught →
  exits w Work = true
  ∧ jobQueue (react w Work) = jobQueue w
  ∧ statusLog (react w Work) = statusLog w
  ∧ redis (react w Work) = redis w
  ∧ containers (docker (react w Work))
    = <[created (docker w) := n]> (containers (docker w))
  ∧ ∀ es, run w (Work :: es) = react w Work.
Proof.
  intros Hbg Hn Himg Happ Ht.
  assert (Hexit : exits w Work = true).
  { cbn [exits]. unfold unsettled. rewrite Hbg.
    by rewrite (processJob_uncaught jobData n img t). }
  cbn [react run]. unfold run_job. rewrite Hexit, Hbg.
  by rewrite (processJob_uncaught jobData n img t).
Qed.

Lemma uncaught_export_error_ends_the_process_witness :
  let w := (serve (post_inspect (Some "cut:latest") "job-1") world1).2 in
  exits w Work = true
  ∧ containers (docker (react w Work)) = {[ 0 := "cut:latest" ]}
  ∧ (status <$> job_record "job-1" (run w [Work; Poll "job-1"; Tick 10]))
    = Some (Some "pending").
Proof.
  intros w.
  destruct (uncaught_export_error_ends_the_process
              {| job_imageUrl := Some "cut:latest"; job_jobId := "job-1" |} []
              "cut:latest" cut_image
              {| entries := [entry "app/" "directory" 0];
                 ending := Uncaught |} w)
    as (Hexit & Hqueue & _ & _ & Hleft & Hrun); try reflexivity.
  split_and!; [done|by rewrite Hleft|].
  rewrite Hrun. unfold job_record. by rewrite Hqueue.
Defined.

(** *** The two queries change nothing *)

Lemma get_status_frame jobId w :
  (serve (get_status jobId) w).2 = set_res (serve (get_status jobId) w).1 w.
Proof.
  unfold serve, get_status, try_catch.
  unfold mbind, M_bind, jobQueue_hgetall, send. cbn.
  by destruct (up (jobQueue w)).
Qed.

Lemma get_results_frame jobId w :
  (serve (get_results jobId) w).2 = set_res (serve (get_results jobId) w).1 w.
Proof.
  unfold serve, get_results, try_catch.
  unfold mbind, M_bind, jobQueue_hgetall, redis_get, send, throw. cbn.
  destruct (up (redis w)); [|done].
  destruct (live (clock w) (redis w) (result_key jobId)); [done|]. cbn.
  destruct (up (jobQueue w)); [|done]. cbn.
  destruct (bool_decide _); [|done]. cbn.
  by destruct (result _).
Qed.

(** X10. The status and the result route are lookups: whatever they answer,
    the engine, both stores, the clock, the status history and the started
    jobs are as before. *)
Theorem queries_leave_the_world_alone (jobId : string) (w : World) :
  (serve (get_status jobId) w).2 = set_res (serve (get_status jobId) w).1 w
  ∧ (serve (get_results jobId) w).2 = set_res (serve (get_results jobId) w).1 w.
Proof. split; [apply get_status_frame|apply get_results_frame]. Qed.

Lemma get_file_without_path imageName w :
  ∃ e, (serve (get_file imageName None) w).1
       = Some {| code := 404; payload := ErrorMessage e |}.
Proof.
  unfold serve. cbn [fst snd].
  pose proof (get_file_outcome w imageName None) as Hout. cbv zeta in Hout.
  destruct (images (docker w) !! imageName);
    destruct Hout as (_ & -> & _); by eexists.
Qed.

(** *** The file route *)

(** X11. What the file route answers for the archive the image exports for
    the path asked for. When the archive decodes, 200 with its first entry.
    When the extractor reports an error, 404. When an error is emitted
    that nothing is subscribed to, nothing at all: the handler never
    settles and the process exits. Without such an archive (the image does
    not resolve, no path is given, the image has nothing at that path)
    the answer is 404. *)
Theorem file_route_answers (imageName : string) (filePath : option string)
    (w : World) :
  let response := (serve (get_file imageName filePath) w).1 in
  (∀ img p t,
     images (docker w) !! imageName = Some img → filePath = Some p →
     archives img !! p = Some t →
     match ending t with
     | Finish =>
         response = Some {| code := 200;
                            payload := FileData (head (to_record <$> entries t)) |}
     | ExtractError message =>
         response = Some {| code := 404; payload := ErrorMessage message |}
     | Uncaught =>
         response = None ∧ exits w (ReadFile imageName filePath) = true
     end)
  ∧ ((images (docker w) !! imageName
        ≫= λ img, filePath ≫= λ p, archives img !! p) = None →
     ∃ e, response = Some {| code := 404; payload := ErrorMessage e |}).
Proof.
  cbv zeta. unfold serve, exits, unsettled. cbn [fst snd].
  pose proof (get_file_outcome w imageName filePath) as Hout. cbv zeta in Hout.
  split.
  - intros img p t Himg -> Hp. rewrite Himg in Hout. cbn in Hout.
    rewrite Hp in Hout.
    destruct (ending t); destruct Hout as (Hend & Hres & _);
      by rewrite ?Hend, Hres.
  - intros Hnone. destruct (images (docker w) !! imageName) as [img|].
    + cbn in Hnone. change (option_bind _ _ ?f ?x) with (x ≫= f) in Hnone.
      rewrite Hnone in Hout. destruct Hout as (_ & -> & _). by eexists.
    + destruct Hout as (_ & -> & _). by eexists.
Qed.

Lemma file_route_answers_witness :
  (serve (get_file "app:latest" (Some "/app")) world1).1
  = Some {| code := 200;
            payload := FileData (Some (to_record (entry "app/" "directory" 0))) |}
  ∧ (serve (get_file "garbled:latest" (Some "/app")) world1).1
    = Some {| code := 404; payload := ErrorMessage "Invalid tar header" |}
  ∧ (serve (get_file "cut:latest" (Some "/app")) world1).1 = None
  ∧ ∃ e, (serve (get_file "app:latest" None) world1).1
         = Some {| code := 404; payload := ErrorMessage e |}.
Proof.
  destruct (file_route_answers "app:latest" (Some "/app") world1) as [Hok _].
  destruct (file_route_answers "garbled:latest" (Some "/app") world1) as [Hbad _].
  destruct (file_route_answers "cut:latest" (Some "/app") world1) as [Hcut _].
  destruct (file_route_answers "app:latest" None world1) as [_ Hno].
  split_and!.
  - apply (Hok app_image "/app"
             {| entries := [entry "app/" "directory" 0;
                            entry "app/index.js" "file" 1536];
                ending := Finish |}); reflexivity.
  - apply (Hbad garbled_image "/app"
             {| entries := [entry "app/" "directory" 0];
                ending := ExtractError "Invalid tar header" |}); reflexivity.
  - apply (Hcut cut_image "/app"
             {| entries := [entry "app/" "directory" 0];
                ending := Uncaught |}); reflexivity.
  - apply Hno. reflexivity.
Defined.

(** *** Listing an archive with relative entry names *)

(** X2. The entry names of an archive are kept as the paths of the records.
    When none of them starts with a separator, as in the archives the
    engine exports, where every name starts with the last component of
    the requested path, the listing of an archive that decodes is empty,
    whatever the archive holds; unless an entry lies directly in a
    directory named like a property every object inherits, and then the
    listing fails with the tree builder's error. *)
Theorem relative_archive_gives_no_listing
    (c : nat) (p n : string) (img : Image) (t : TarStream) (w : World) :
  containers (docker w) !! c = Some n →
  images (docker w) !! n = Some img →
  archives img !! p = Some t →
  broken t = false →
  Forall (λ e, rooted (header_name e) = false) (entries t) →
  listFiles c p w
  = (Some (if decide (inherited_parent (to_record <$> entries t))
           then Throw "Cannot read properties of undefined (reading 'push')"
           else Normal []), w).
Proof.
  intros Hc Himg Hp Ht Hnames.
  rewrite (listFiles_decodes n img c p t) by done.
  rewrite TreeBuilderShape.unrooted_tree
    by (apply Forall_fmap; by eapply Forall_impl).
  by case_decide.
Qed.

Lemma relative_archive_gives_no_listing_witness :
  let w := (createContainer (Some "app:latest") world0).2 in
  listFiles 0 "/app" w = (Some (Normal []), w).
Proof.
  intros w.
  apply (relative_archive_gives_no_listing 0 "/app" "app:latest" app_image
           {| entries := [entry "app/" "directory" 0;
                          entry "app/index.js" "file" 1536];
              ending := Finish |} w); try reflexivity.
  repeat constructor.
Defined.

(** *** Invariants along every run *)

Section Keeps.
Context {A B : Type} (P : World → Prop).

Lemma keeps_mret (a : A) : keeps P (mret a).
Proof. by intros w Hw. Qed.

Lemma keeps_throw e : keeps P (throw (A:=A) e).
Proof. by intros w Hw. Qed.

Lemma keeps_bind (m : M A) (f : A → M B) :
  keeps P m → (∀ a, keeps P (f a)) → keeps P (m ≫= f).
Proof.
  intros Hm Hf w Hw. specialize (Hm w Hw). unfold mbind, M_bind.
  destruct (m w) as [[[a|e]|] w']; cbn in *; [by apply Hf|done..].
Qed.

Lemma keeps_try_catch (body : M A) (handler : string → M A) :
  keeps P body → (∀ e, keeps P (handler e)) → keeps P (try_catch body handler).
Proof.
  intros Hb Hh w Hw. specialize (Hb w Hw). unfold try_catch.
  destruct (body w) as [[[a|e]|] w']; cbn in *; [done|by apply Hh|done].
Qed.

Lemma keeps_try_finally (body : M A) (cleanup : M unit) :
  keeps P body → keeps P cleanup → keeps P (try_finally body cleanup).
Proof.
  intros Hb Hc w Hw. specialize (Hb w Hw). unfold try_finally.
  destruct (body w) as [[r|] w']; cbn in *; [|done]. specialize (Hc w' Hb).
  by destruct (cleanup w') as [[[[]|e]|] w''].
Qed.

Lemma keeps_neutral (m : M A) :
  looks_at_engine_and_log P → neutral m → keeps P m.
Proof. intros HP Hm w Hw. destruct (Hm w). by eapply HP. Qed.
End Keeps.

Ltac neutral_op := intros w; cbv beta delta [
    docker_pull image_inspect getArchive redis_setex redis_get
    jobQueue_hgetall send dispatch extractTarStream throw exit mret M_ret];
  repeat case_match; done.

Lemma neutral_docker_pull n : neutral (docker_pull n).
Proof. neutral_op. Qed.
Lemma neutral_image_inspect n : neutral (image_inspect n).
Proof. neutral_op. Qed.
Lemma neutral_getArchive c p : neutral (getArchive c p).
Proof. neutral_op. Qed.
Lemma neutral_redis_setex k s v : neutral (redis_setex k s v).
Proof. neutral_op. Qed.
Lemma neutral_redis_get k : neutral (redis_get k).
Proof. neutral_op. Qed.
Lemma neutral_jobQueue_hgetall k : neutral (jobQueue_hgetall k).
Proof. neutral_op. Qed.
Lemma neutral_send c p : neutral (send c p).
Proof. neutral_op. Qed.
Lemma neutral_dispatch jd : neutral (dispatch jd).
Proof. neutral_op. Qed.
Lemma neutral_extractTarStream t : neutral (extractTarStream t).
Proof. neutral_op. Qed.

Create HintDb neutral.
#[local] Hint Resolve neutral_docker_pull neutral_image_inspect
  neutral_getArchive neutral_redis_setex neutral_redis_get
  neutral_jobQueue_hgetall neutral_send neutral_dispatch
  neutral_extractTarStream : neutral.

(** The structure of a handler is walked rule by rule; [special] closes
    the operations that are not neutral. *)
Ltac walk HP special :=
  repeat first
    [ apply keeps_mret
    | apply keeps_throw
    | apply keeps_bind; [|intros ?]
    | apply keeps_try_catch; [|intros ?]
    | apply keeps_try_finally
    | apply (keeps_neutral _ _ HP); solve [auto with neutral]
    | special
    | match goal with
      | |- keeps _ (if ?b then _ else _) => destruct b
      | |- keeps _ (match ?x with _ => _ end) => destruct x
      end ].

(** **** Container ids *)

Lemma fresh_ids_looks : looks_at_engine_and_log fresh_ids.
Proof. intros w w' Hd _. unfold fresh_ids. by rewrite Hd. Qed.

Lemma fresh_createContainer n : keeps fresh_ids (createContainer n).
Proof.
  intros w Hw. unfold createContainer. repeat case_match; try done.
  intros id. cbn. destruct (decide (id = created (docker w))) as [->|Hne].
  - lia.
  - rewrite lookup_insert_ne by done. intros Hid%Hw. lia.
Qed.

Lemma fresh_container_remove c : keeps fresh_ids (container_remove c).
Proof.
  intros w Hw. unfold container_remove. case_match; [|done].
  intros id. cbn. destruct (decide (id = c)) as [->|Hne].
  - rewrite lookup_delete_eq. by intros [? ?].
  - rewrite lookup_delete_ne by done. apply Hw.
Qed.

Lemma fresh_jobQueue_hset k fields : keeps fresh_ids (jobQueue_hset k fields).
Proof. intros w Hw. unfold jobQueue_hset. by case_match. Qed.

Ltac fresh_special :=
  first [ apply fresh_createContainer | apply fresh_container_remove
        | apply fresh_jobQueue_hset ].

Lemma fresh_processJob jobData : keeps fresh_ids (processJob jobData).
Proof.
  unfold processJob, listFiles. walk fresh_ids_looks fresh_special.
Qed.

Lemma fresh_post_inspect image_name uuid :
  keeps fresh_ids (post_inspect image_name uuid).
Proof. unfold post_inspect. walk fresh_ids_looks fresh_special. Qed.

Lemma fresh_get_status jobId : keeps fresh_ids (get_status jobId).
Proof. unfold get_status. walk fresh_ids_looks fresh_special. Qed.

Lemma fresh_get_results jobId : keeps fresh_ids (get_results jobId).
Proof. unfold get_results. walk fresh_ids_looks fresh_special. Qed.

Lemma fresh_get_file imageName filePath :
  keeps fresh_ids (get_file imageName filePath).
Proof.
  unfold get_file, getFileContents. walk fresh_ids_looks fresh_special.
Qed.

Lemma react_fresh w e : fresh_ids w → fresh_ids (react w e).
Proof.
  intros Hw. destruct e; cbn [react]; unfold serve, run_job, advance.
  - by apply fresh_post_inspect.
  - by apply fresh_get_status.
  - by apply fresh_get_results.
  - by apply fresh_get_file.
  - destruct (background w); [done|]. by apply fresh_processJob.
  - done.
Qed.

Lemma run_fresh w es : fresh_ids w → fresh_ids (run w es).
Proof. apply run_invariant. intros ? ?. apply react_fresh. Qed.

(** X12. In every state the service reaches, a file request the process
    lives through leaves the set of containers exactly as it found it:
    the container it creates is removed on every path out of the [try]
    block, whatever happened before. The request under which the process
    exits (X11) leaves its container behind: the [finally] block is never
    reached. *)
Theorem file_request_removes_its_container_or_exits
    (w : World) (es : list event) (imageName : string) (filePath : option string) :
  fresh_ids w →
  let before := containers (docker (run w es)) in
  let after :=
    containers (docker (react (run w es) (ReadFile imageName filePath))) in
  if exits (run w es) (ReadFile imageName filePath)
  then after = <[created (docker (run w es)) := imageName]> before
  else after = before.
Proof.
  intros Hw. cbv zeta. cbn [react exits]. unfold serve, unsettled. cbn [fst snd].
  pose proof (run_fresh w es Hw (created (docker (run w es)))) as Hfresh.
  assert (Hnone : containers (docker (run w es)) !! created (docker (run w es))
                  = None).
  { destruct (containers (docker (run w es)) !! created (docker (run w es)));
      [|done].
    assert (is_Some (Some s)) as Hs by by eexists. apply Hfresh in Hs. lia. }
  pose proof (get_file_outcome (run w es) imageName filePath) as Hout.
  cbv zeta in Hout. rewrite delete_insert_id in Hout by done.
  destruct (images (docker (run w es)) !! imageName) as [img|];
    [|by destruct Hout as (-> & _ & ->)].
  destruct (filePath ≫= _) as [t|]; [|by destruct Hout as (-> & _ & ->)].
  destruct (ending t); by destruct Hout as (-> & _ & ->).
Qed.

Lemma file_request_removes_its_container_or_exits_witness :
  containers (docker (react (run world1 [Submit (Some "alpine:latest") "job-1";
                                         Work])
                        (ReadFile "app:latest" (Some "/nowhere"))))
  = {[ 0 := "alpine:latest" ]}
  ∧ containers (docker (react (run world1 [Submit (Some "alpine:latest") "job-1";
                                           Work])
                          (ReadFile "cut:latest" (Some "/app"))))
    = <[ 1 := "cut:latest" ]> {[ 0 := "alpine:latest" ]}.
Proof.
  assert (Hfresh : fresh_ids world1).
  { intros id Hid. cbn in Hid. rewrite lookup_empty in Hid. by destruct Hid. }
  split.
  - pose proof (file_request_removes_its_container_or_exits world1
                  [Submit (Some "alpine:latest") "job-1"; Work]
                  "app:latest" (Some "/nowhere") Hfresh) as Hkeep.
    cbv zeta in Hkeep.
    replace (exits _ _) with false in Hkeep by (vm_compute; reflexivity).
    rewrite Hkeep. vm_compute. reflexivity.
  - pose proof (file_request_removes_its_container_or_exits world1
                  [Submit (Some "alpine:latest") "job-1"; Work]
                  "cut:latest" (Some "/app") Hfresh) as Hleft.
    cbv zeta in Hleft.
    replace (exits _ _) with true in Hleft by (vm_compute; reflexivity).
    rewrite Hleft. vm_compute. reflexivity.
Defined.

(** **** The values of the status field *)

Lemma log_known_looks : looks_at_engine_and_log log_known.
Proof. intros w w' _ Hl. unfold log_known. by rewrite Hl. Qed.

Lemma log_createContainer n : keeps log_known (createContainer n).
Proof. intros w Hw. unfold createContainer. by repeat case_match. Qed.

Lemma log_container_remove c : keeps log_known (container_remove c).
Proof. intros w Hw. unfold container_remove. by case_match. Qed.

Lemma log_jobQueue_hset k fields :
  (∀ s, status fields = Some s → known_status s) →
  keeps log_known (jobQueue_hset k fields).
Proof.
  intros Hs w Hw. unfold jobQueue_hset. case_match; [|done].
  unfold log_known. cbn. apply Forall_app. split; [done|].
  destruct (status fields) as [s|]; cbn; [|constructor].
  constructor; [by apply Hs|constructor].
Qed.

Ltac log_special :=
  first [ apply log_createContainer | apply log_container_remove
        | apply log_jobQueue_hset; cbn; intros ? [= <-];
          unfold known_status; auto ].

Lemma log_processJob jobData : keeps log_known (processJob jobData).
Proof. unfold processJob, listFiles. walk log_known_looks log_special. Qed.

Lemma log_post_inspect image_name uuid :
  keeps log_known (post_inspect image_name uuid).
Proof. unfold post_inspect. walk log_known_looks log_special. Qed.

Lemma log_get_status jobId : keeps log_known (get_status jobId).
Proof. unfold get_status. walk log_known_looks log_special. Qed.

Lemma log_get_results jobId : keeps log_known (get_results jobId).
Proof. unfold get_results. walk log_known_looks log_special. Qed.

Lemma log_get_file imageName filePath :
  keeps log_known (get_file imageName filePath).
Proof.
  unfold get_file, getFileContents. walk log_known_looks log_special.
Qed.

Lemma react_log_known w e : log_known w → log_known (react w e).
Proof.
  intros Hw. destruct e; cbn [react]; unfold serve, run_job, advance.
  - by apply log_post_inspect.
  - by apply log_get_status.
  - by apply log_get_results.
  - by apply log_get_file.
  - destruct (background w); [done|]. by apply log_processJob.
  - done.
Qed.

Lemma run_log_known w es : log_known w → log_known (run w es).
Proof. apply run_invariant. intros ? ?. apply react_log_known. Qed.

(** X13. Whatever requests arrive and whatever jobs run, the status of a job
    only ever takes the values [pending], [completed] and [failed]: no
    other value is written by any route or by the worker. *)
Theorem status_only_takes_three_values
    (w : World) (es : list event) (jobId s : string) :
  log_known w → s ∈ status_history jobId (run w es) → known_status s.
Proof.
  intros Hw Hs. pose proof (run_log_known w es Hw) as Hlog.
  unfold status_history in Hs. apply list_elem_of_fmap in Hs as ([k s'] & -> & Hin).
  apply list_elem_of_filter in Hin as [_ Hin].
  unfold log_known in Hlog. rewrite Forall_forall in Hlog. by apply (Hlog (k, s')).
Qed.

Lemma status_only_takes_three_values_witness :
  "failed" ∈ status_history "job-1"
               (run world0 [Submit (Some "alpine:latest") "job-1"; Work])
  ∧ known_status "failed".
Proof.
  assert (Hin : "failed" ∈ status_history "job-1"
                  (run world0 [Submit (Some "alpine:latest") "job-1"; Work])).
  { vm_compute. apply elem_of_cons. right. apply elem_of_cons. by left. }
  split; [exact Hin|].
  apply (status_only_takes_three_values world0
           [Submit (Some "alpine:latest") "job-1"; Work] "job-1" "failed");
    [constructor|exact Hin].
Defined.

(** **** Completed hashes *)

(** X14. In every state the service reaches from one where it holds, a job hash
    whose status is [completed] carries a result, so the result route and
    the status route never find a completed job without one. *)
Theorem completed_hash_always_has_a_result
    (w : World) (es : list event) (jobId : string) (job : Job) :
  consistent w →
  job_record jobId (run w es) = Some job → status job = Some "completed" →
  is_Some (result job).
Proof. intros Hw Hjob Hdone. by eapply (run_consistent w es Hw). Qed.

Lemma completed_hash_always_has_a_result_witness :
  ∃ job, job_record "job-1" (run world0 [Submit (Some "app:latest") "job-1"; Work])
         = Some job
         ∧ is_Some (result job).
Proof.
  destruct (job_record "job-1"
              (run world0 [Submit (Some "app:latest") "job-1"; Work]))
    as [job|] eqn:Hjob; [|vm_compute in Hjob; discriminate].
  exists job. split; [done|].
  apply (completed_hash_always_has_a_result world0
           [Submit (Some "app:latest") "job-1"; Work] "job-1" job);
    [apply world0_consistent|done|].
  vm_compute in Hjob. by injection Hjob as <-.
Defined.
End ServiceRuns.

Module ClientTheory.
Import TreeBuilder Server ServerTheory Client.

(** *** Folders *)

(** X15. Toggling a folder flips its own membership and no other; toggling it
    twice gives the set back. *)
Theorem toggleFolder_flips_one_folder (expandedFolders : gset string) (p : string) :
  (p ∈ toggleFolder expandedFolders p ↔ p ∉ expandedFolders)
  ∧ (∀ q, q ≠ p → q ∈ toggleFolder expandedFolders p ↔ q ∈ expandedFolders)
  ∧ toggleFolder (toggleFolder expandedFolders p) p = expandedFolders.
Proof.
  unfold toggleFolder. split_and!.
  - destruct (decide (p ∈ expandedFolders)).
    + rewrite elem_of_difference, elem_of_singleton. tauto.
    + rewrite elem_of_union, elem_of_singleton. tauto.
  - intros q Hq. destruct (decide (p ∈ expandedFolders)).
    + rewrite elem_of_difference, elem_of_singleton. tauto.
    + rewrite elem_of_union, elem_of_singleton. tauto.
  - destruct (decide (p ∈ expandedFolders)) as [Hin|Hout].
    + rewrite decide_False
        by (rewrite elem_of_difference, elem_of_singleton; tauto).
      apply set_eq. intros q.
      rewrite elem_of_union, elem_of_difference, elem_of_singleton.
      destruct (decide (q = p)) as [->|]; tauto.
    + rewrite decide_True by (rewrite elem_of_union, elem_of_singleton; tauto).
      apply set_eq. intros q.
      rewrite elem_of_difference, elem_of_union, elem_of_singleton.
      destruct (decide (q = p)) as [->|]; tauto.
Qed.

(** *** Polling *)

Lemma react_reads_only w e : reads_only e → jobQueue (react w e) = jobQueue w.
Proof.
  destruct e as [? ?|id|id|? ?| |?]; cbn [reads_only react]; try done;
    intros _; unfold serve; cbv zeta; cbn [snd].
  - by destruct (quiet_get_status id (set_res None w)) as [-> _].
  - by destruct (quiet_get_results id (set_res None w)) as [-> _].
Qed.

Lemma run_reads_only w es : Forall reads_only es → jobQueue (run w es) = jobQueue w.
Proof.
  intros Hes. revert w.
  induction Hes as [|e es He _ IH]; intros w; cbn [run]; [done|].
  destruct (exits w e); [by apply react_reads_only|].
  by rewrite IH, react_reads_only.
Qed.

(** The process lives through every query and every tick. *)
Lemma exits_reads_only w e : reads_only e → exits w e = false.
Proof.
  destruct e as [? ?|id|id|? ?| |?]; cbn [reads_only exits]; try done; intros _.
  - unfold unsettled, get_status, try_catch.
    unfold mbind, M_bind, jobQueue_hgetall, send. cbn.
    by destruct (up (jobQueue w)).
  - unfold unsettled, get_results, try_catch.
    unfold mbind, M_bind, jobQueue_hgetall, redis_get, send, throw. cbn.
    destruct (up (redis w)); [|done].
    destruct (live (clock w) (redis w) (result_key id)); [done|]. cbn.
    destruct (up (jobQueue w)); [|done]. cbn.
    destruct (bool_decide _); [|done]. cbn.
    by destruct (result _).
Qed.

Lemma survives_reads_only w es : Forall reads_only es → survives w es = true.
Proof.
  intros Hes. revert w.
  induction Hes as [|e es He _ IH]; intros w; cbn [survives]; [done|].
  by rewrite exits_reads_only, IH.
Qed.

(** A wait in which the oldest started job runs to its end. *)
Lemma wait_for_job w jobData rest :
  background w = jobData :: rest →
  is_Some (processJob jobData (set_background rest w)).1 →
  survives w [Work] = true
  ∧ run w [Work] = (processJob jobData (set_background rest w)).2.
Proof.
  intros Hbg [r Hr]. cbn [survives run exits react]. unfold run_job, unsettled.
  rewrite Hbg, Hr. done.
Qed.

Lemma get_status_down id w :
  up (jobQueue w) = false →
  (serve (get_status id) w).1
  = Some {| code := 500; payload := ErrorMessage unreachable |}.
Proof.
  intros Hdown. unfold serve, get_status, try_catch.
  unfold mbind, M_bind, jobQueue_hgetall, send. cbn. by rewrite Hdown.
Qed.

Lemma poll_once_unanswerable id ui w :
  up (jobQueue w) = false ∨ job_record id w = None →
  ∃ r, pollJobStatus_once id ui w = (ui, true, set_res r w).
Proof.
  intros Hw. unfold pollJobStatus_once.
  pose proof (ServiceRuns.get_status_frame id w) as Hf.
  assert (Hr : ∃ r, (serve (get_status id) w).1 = Some r
                    ∧ status_of (payload r) = None).
  { destruct (up (jobQueue w)) eqn:Hup.
    - destruct Hw as [?|Hnone]; [done|].
      rewrite get_status_up by done. rewrite Hnone. by eexists.
    - rewrite get_status_down by done. by eexists. }
  destruct (serve (get_status id) w) as [resp w1]. cbn in Hf, Hr.
  destruct Hr as (r & -> & Hst). subst w1. rewrite Hst. cbn. by eexists.
Qed.

(** X17. Polling a job id the server does not know never ends: the status
    route answers 200 without a status (or 500 when the job store is
    down), which the poll takes for "not finished yet". However long it
    waits, while nothing creates that job, the spinner stays and no error
    is shown. *)
Theorem polling_an_unknown_job_never_ends
    (waits : list (list event)) (id : string) (ui : Inspector) (w : World) :
  up (jobQueue w) = false ∨ job_record id w = None →
  Forall (Forall reads_only) waits →
  (pollJobStatus waits id ui w).1 = (ui, true).
Proof.
  intros Hw Hwaits. revert w Hw.
  induction Hwaits as [|es waits Hes _ IH]; intros w Hw; cbn [pollJobStatus];
    destruct (poll_once_unanswerable id ui w Hw) as (r & ->); [done|].
  cbv zeta. rewrite survives_reads_only by done.
  apply IH. unfold job_record.
  rewrite (run_reads_only _ es Hes). exact Hw.
Qed.

Lemma polling_an_unknown_job_never_ends_witness :
  (pollJobStatus [[]; [Tick 5]; [Poll "other"]] "never-created"
     {| loading := true; error := None; inspectionData := None;
        jobId := Some "never-created" |} world0).1
  = ({| loading := true; error := None; inspectionData := None;
        jobId := Some "never-created" |}, true).
Proof.
  apply polling_an_unknown_job_never_ends.
  - right. reflexivity.
  - repeat constructor.
Defined.

(** *** The file viewer *)

(** X20. Whatever file is clicked, the viewer ends with the error "Failed to
    fetch file content": its request carries the file's path where the
    route expects the image name and carries no [path] parameter, and the
    route answers such a request 404. *)
Theorem file_viewer_always_fails (file_path : string) (v : Viewer) (w : World) :
  (fetchFileContent file_path v w).1
  = {| content := content v; viewer_loading := false;
       viewer_error := Some "Failed to fetch file content" |}.
Proof.
  unfold fetchFileContent.
  destruct (ServiceRuns.get_file_without_path file_path w) as [e He].
  destruct (serve (get_file file_path None) w) as [resp w1]. cbn in He.
  by rewrite He.
Qed.

(** *** An inspection from the click to the tree *)

Lemma handleInspect_accepted n uuid ui w :
  up (jobQueue w) = true →
  handleInspect n uuid ui w
  = ({| loading := true; error := None; inspectionData := None;
        jobId := Some uuid |}, Some uuid,
     (serve (post_inspect (Some n) uuid) w).2).
Proof.
  intros Hup. unfold handleInspect.
  destruct (post_inspect_up (Some n) uuid w Hup) as (Hresp & _).
  destruct (serve (post_inspect (Some n) uuid) w) as [resp w1].
  cbn in Hresp. by rewrite Hresp.
Qed.

Lemma poll_once_pending id job ui w :
  up (jobQueue w) = true → job_record id w = Some job →
  status job = Some "pending" →
  ∃ r, pollJobStatus_once id ui w = (ui, true, set_res r w).
Proof.
  intros Hup Hjob Hst. unfold pollJobStatus_once.
  pose proof (ServiceRuns.get_status_frame id w) as Hf.
  pose proof (known_job_status id job w Hup Hjob) as Hr.
  destruct (serve (get_status id) w) as [resp w1]. cbn in Hf, Hr.
  subst resp w1. cbn. rewrite Hst. cbn. by eexists.
Qed.

Lemma poll_once_completed id job r ui w :
  up (jobQueue w) = true → job_record id w = Some job →
  status job = Some "completed" →
  up (redis w) = true → cached id w = Some r →
  (pollJobStatus_once id ui w).1
  = ({| loading := false; error := error ui;
        inspectionData := Some (Results r); jobId := jobId ui |}, false).
Proof.
  intros Hup Hjob Hst Hredis Hhit. unfold pollJobStatus_once.
  pose proof (ServiceRuns.get_status_frame id w) as Hf.
  pose proof (known_job_status id job w Hup Hjob) as Hr.
  destruct (serve (get_status id) w) as [resp w1]. cbn in Hf, Hr.
  subst resp w1. cbn -[serve]. rewrite Hst. cbn -[serve].
  match goal with
  | |- context [serve (get_results id) ?x] =>
      pose proof (ServiceRuns.get_results_hit id r x Hredis Hhit) as Hres;
      destruct (serve (get_results id) x) as [resp2 w2]
  end.
  cbn in Hres.
  by rewrite Hres.
Qed.

Lemma poll_once_failed id job ui w :
  up (jobQueue w) = true → job_record id w = Some job →
  status job = Some "failed" →
  (pollJobStatus_once id ui w).1
  = ({| loading := false;
        error := if truthy_string (Server.error job) then Server.error job else None;
        inspectionData := inspectionData ui; jobId := jobId ui |}, false).
Proof.
  intros Hup Hjob Hst. unfold pollJobStatus_once.
  pose proof (known_job_status id job w Hup Hjob) as Hr.
  destruct (serve (get_status id) w) as [resp w1]. cbn in Hr.
  subst resp. cbn. rewrite Hst. done.
Qed.

Lemma pollJobStatus_stops waits id ui w ui' :
  (pollJobStatus_once id ui w).1 = (ui', false) →
  (pollJobStatus waits id ui w).1 = (ui', false).
Proof.
  intros Hp. destruct waits; cbn [pollJobStatus];
    destruct (pollJobStatus_once id ui w) as [[ui1 again] w1];
    cbn in Hp; injection Hp as -> ->; done.
Qed.

Section Inspection.
Context (n uuid : string) (ui : Inspector) (w : World)
        (waits : list (list event)).
Hypothesis Hqueue : up (jobQueue w) = true.
Hypothesis Hidle : background w = [].

Let clicked := handleInspect n uuid ui w.

(** X18. From the click on: the server accepts the submission, the first poll
    finds the job pending and waits, the worker runs during the wait, and
    the next poll loads the result into [inspectionData] and clears the
    spinner, when the image resolves, its [/app] export decodes and the
    tree builds. *)
Theorem inspection_loads_the_result img t tree :
  images (docker w) !! n = Some img →
  archives img !! "/app" = Some t →
  broken t = false →
  (buildFileTree (to_record <$> entries t)).2 = Normal tree →
  up (redis w) = true →
  containers (docker w) !! created (docker w) = None →
  clicked.1.2 = Some uuid
  ∧ (pollJobStatus ([Work] :: waits) uuid clicked.1.1 clicked.2).1
    = ({| loading := false; error := None;
          inspectionData := Some (Results {| manifest := inspect img;
                                             files := tree |});
          jobId := Some uuid |}, false).
Proof.
  intros Himg Happ Ht Htree Hredis Hfresh. subst clicked.
  rewrite handleInspect_accepted by done. cbn [fst snd]. split; [done|].
  destruct (post_inspect_up (Some n) uuid w Hqueue)
    as (_ & Hup1 & _ & Hpending & Hbg & Hdocker & Hredis1).
  set (w1 := (serve (post_inspect (Some n) uuid) w).2) in *. clearbody w1.
  destruct (job_record uuid w1) as [job|] eqn:Hjob; [|done].
  cbn in Hpending. injection Hpending as Hpending.
  cbn [pollJobStatus].
  destruct (poll_once_pending uuid job
              {| loading := true; error := None; inspectionData := None;
                 jobId := Some uuid |} w1 Hup1 Hjob Hpending) as (r0 & ->).
  cbv zeta.
  set (jobData := {| job_imageUrl := Some n; job_jobId := uuid |}).
  destruct (ServiceRuns.processJob_goes_through jobData n img t tree
              (set_background [] (advance 1 (set_res r0 w1))))
    as (_ & _ & Hclock & Hredis' & Hqueue' & Hentry
        & (job' & Hjob' & Hst' & Hres') & Hend);
    try done.
  { cbn. by rewrite Hdocker. }
  { cbn. by rewrite Hredis1. }
  { cbn. by rewrite Hdocker. }
  destruct (wait_for_job (advance 1 (set_res r0 w1)) jobData []) as [-> ->].
  { cbn [advance set_clock set_res background]. by rewrite Hbg, Hidle. }
  { by rewrite Hend. }
  apply pollJobStatus_stops.
  subst jobData. cbn [job_jobId] in *.
  eapply poll_once_completed; try done.
  unfold cached, live. rewrite Hentry, Hclock.
  assert (Hpos : 0 < 3600) by apply Nat.lt_0_succ.
  revert Hpos. generalize 3600. intros ttl Hpos.
  match goal with |- context [decide (?a < ?b)] => destruct (decide (a < b)) end;
    [done|lia].
Qed.

(** X19. When the engine cannot resolve the image, the same steps end with the
    engine's message in [error], the spinner cleared and no data. *)
Theorem inspection_reports_the_failure :
  images (docker w) !! n = None →
  clicked.1.2 = Some uuid
  ∧ ∃ e, e ≠ ""
         ∧ (pollJobStatus ([Work] :: waits) uuid clicked.1.1 clicked.2).1
           = ({| loading := false; error := Some e; inspectionData := None;
                 jobId := Some uuid |}, false).
Proof.
  intros Himg. subst clicked.
  rewrite handleInspect_accepted by done. cbn [fst snd]. split; [done|].
  destruct (post_inspect_up (Some n) uuid w Hqueue)
    as (_ & Hup1 & _ & Hpending & Hbg & Hdocker & _).
  set (w1 := (serve (post_inspect (Some n) uuid) w).2) in *. clearbody w1.
  destruct (job_record uuid w1) as [job|] eqn:Hjob; [|done].
  cbn in Hpending. injection Hpending as Hpending.
  cbn [pollJobStatus].
  destruct (poll_once_pending uuid job
              {| loading := true; error := None; inspectionData := None;
                 jobId := Some uuid |} w1 Hup1 Hjob Hpending) as (r0 & ->).
  cbv zeta.
  set (jobData := {| job_imageUrl := Some n; job_jobId := uuid |}).
  destruct (ServiceRuns.processJob_unresolvable jobData
              (set_background [] (advance 1 (set_res r0 w1))))
    as (_ & _ & Hqueue' & (job' & e & Hjob' & Hst' & He & Hne) & Hend).
  { cbn. by rewrite Hdocker, Himg. }
  { done. }
  destruct (wait_for_job (advance 1 (set_res r0 w1)) jobData []) as [-> ->].
  { cbn [advance set_clock set_res background]. by rewrite Hbg, Hidle. }
  { by rewrite Hend. }
  subst jobData. cbn [job_jobId] in *.
  exists e. split; [done|]. apply pollJobStatus_stops.
  rewrite (poll_once_failed uuid job') by done. rewrite He.
  unfold truthy_string. by rewrite bool_decide_false.
Qed.
(** X22. When the [/app] export of the image ends in an error nothing is
    subscribed to, the same steps end in the [catch] block of the poll:
    the worker takes the server process down during the wait, the next
    request gets no answer, the error of the failed fetch is shown and the
    spinner cleared, while the job is still [pending] in the job store. *)
Theorem inspection_ends_when_the_server_exits img t :
  images (docker w) !! n = Some img →
  archives img !! "/app" = Some t →
  ending t = Uncaught →
  let polled := pollJobStatus ([Work] :: waits) uuid clicked.1.1 clicked.2 in
  (∃ e, polled.1 = ({| loading := false; error := Some e;
                       inspectionData := None; jobId := Some uuid |}, false))
  ∧ (status <$> job_record uuid polled.2) = Some (Some "pending").
Proof.
  intros Himg Happ Ht. subst clicked.
  rewrite handleInspect_accepted by done. cbn [fst snd].
  destruct (post_inspect_up (Some n) uuid w Hqueue)
    as (_ & Hup1 & _ & Hpending & Hbg & Hdocker & _).
  set (w1 := (serve (post_inspect (Some n) uuid) w).2) in *. clearbody w1.
  destruct (job_record uuid w1) as [job|] eqn:Hjob; [|done].
  cbn in Hpending. injection Hpending as Hpending.
  cbn [pollJobStatus].
  destruct (poll_once_pending uuid job
              {| loading := true; error := None; inspectionData := None;
                 jobId := Some uuid |} w1 Hup1 Hjob Hpending) as (r0 & ->).
  cbv zeta.
  set (jobData := {| job_imageUrl := Some n; job_jobId := uuid |}).
  assert (Himg1 : images (docker (set_background []
                                    (advance 1 (set_res r0 w1)))) !! n
                  = Some img) by (cbn; by rewrite Hdocker).
  pose proof (ServiceRuns.processJob_uncaught jobData n img t _
                eq_refl Himg1 Happ Ht) as Hgone.
  cbn [survives run exits react]. unfold unsettled, run_job.
  cbn [advance set_clock set_res background]. rewrite Hbg, Hidle. cbn [app].
  subst jobData. rewrite Hgone. cbn.
  split; [by eexists|]. unfold job_record in *. cbn. rewrite Hjob. cbn.
  by rewrite Hpending.
Qed.
End Inspection.

Lemma inspection_ends_when_the_server_exits_witness :
  ∃ e,
    (pollJobStatus [[Work]; [Tick 1]] "job-1"
       (handleInspect "cut:latest" "job-1"
          {| loading := false; error := None; inspectionData := None;
             jobId := None |} world1).1.1
       (handleInspect "cut:latest" "job-1"
          {| loading := false; error := None; inspectionData := None;
             jobId := None |} world1).2).1
    = ({| loading := false; error := Some e; inspectionData := None;
          jobId := Some "job-1" |}, false).
Proof.
  eapply (inspection_ends_when_the_server_exits "cut:latest" "job-1" _ world1
            [[Tick 1]] eq_refl eq_refl cut_image _); reflexivity.
Defined.

Lemma inspection_loads_the_result_witness :
  (pollJobStatus [[Work]] "job-1"
     (handleInspect "app:latest" "job-1"
        {| loading := false; error := None; inspectionData := None;
           jobId := None |} world0).1.1
     (handleInspect "app:latest" "job-1"
        {| loading := false; error := None; inspectionData := None;
           jobId := None |} world0).2).1
  = ({| loading := false; error := None;
        inspectionData := Some (Results {| manifest := alpine_inspect;
                                           files := [] |});
        jobId := Some "job-1" |}, false).
Proof.
  eapply (inspection_loads_the_result "app:latest" "job-1" _ world0 []
            eq_refl eq_refl app_image _ []); reflexivity.
Defined.

Lemma inspection_reports_the_failure_witness :
  ∃ e, e ≠ ""
       ∧ (pollJobStatus [[Work]] "job-1"
            (handleInspect "nowhere:latest" "job-1"
               {| loading := false; error := None; inspectionData := None;
                  jobId := None |} world0).1.1
            (handleInspect "nowhere:latest" "job-1"
               {| loading := false; error := None; inspectionData := None;
                  jobId := None |} world0).2).1
         = ({| loading := false; error := Some e; inspectionData := None;
               jobId := Some "job-1" |}, false).
Proof.
  eapply (inspection_reports_the_failure "nowhere:latest" "job-1" _ world0 []
            eq_refl eq_refl). reflexivity.
Defined.
End ClientTheory.

Module FrontendShape.
Import TreeBuilder Frontend.

Lemma pruned_refl (h : Heap) : pruned h h.
Proof.
  split; [done|]. intros i o Hi. exists o. split; [done|].
  split; [by repeat split|]. by destruct (children o).
Qed.

Lemma pruned_trans (h1 h2 h3 : Heap) : pruned h1 h2 → pruned h2 h3 → pruned h1 h3.
Proof.
  intros [Hl12 H12] [Hl23 H23]. split; [congruence|].
  intros i o Hi. destruct (H12 i o Hi) as (o2 & Hi2 & Hf2 & Hc2).
  destruct (H23 i o2 Hi2) as (o3 & Hi3 & Hf3 & Hc3).
  exists o3. split; [done|]. split.
  - destruct Hf2 as (? & ? & ? & ? & ?), Hf3 as (? & ? & ? & ? & ?).
    repeat split; congruence.
  - destruct (children o), (children o2), (children o3); try done.
    by etrans.
Qed.

Lemma pruned_alter (h h' : Heap) node o cs cs' :
  pruned h h' → h !! node = Some o → children o = Some cs → sublist cs' cs →
  pruned h (alter (set_children cs') node h').
Proof.
  intros [Hlen Hp] Ho Hcs Hsub. split; [by rewrite length_alter|].
  intros i oi Hi. destruct (Hp i oi Hi) as (oi' & Hi' & Hf & Hc).
  destruct (decide (i = node)) as [->|Hne].
  - rewrite list_lookup_alter_eq, Hi'. cbn. eexists. split; [done|].
    split; [exact Hf|]. cbn. replace oi with o by congruence. by rewrite Hcs.
  - rewrite list_lookup_alter_ne by done. by exists oi'.
Qed.

Lemma filterNodes_prunes fuel term nodes (h : Heap) out h' :
  filterNodes fuel term nodes h = Some (out, h') →
  sublist out nodes ∧ pruned h h'.
Proof.
  revert nodes h out h'. induction fuel as [|fuel IHfuel]; [done|].
  induction nodes as [|node rest IHrest]; intros h out h'.
  - intros [= <- <-]. split; [done|apply pruned_refl].
  - cbn [filterNodes]. cbn [mbind option_bind].
    destruct (h !! node) as [o|] eqn:Ho; [|done]. cbn [mbind option_bind].
    destruct (children o) as [cs|] eqn:Hcs.
    + destruct (filterNodes fuel term cs h) as [[cs' hc]|] eqn:Hrec; [|done].
      cbn [mbind option_bind].
      apply IHfuel in Hrec as [Hsub Hpr].
      match goal with
      | |- context [ ?f rest (alter (set_children cs') node hc) ] =>
          destruct (f rest (alter (set_children cs') node hc))
            as [[kept h2]|] eqn:Hrest; [|done]
      end.
      apply IHrest in Hrest as [Hsub2 Hpr2]. cbn.
      intros [= <- <-]. split.
      * destruct (_ || _); [by constructor|by apply sublist_cons].
      * eapply pruned_trans; [|exact Hpr2]. by eapply pruned_alter.
    + cbn [mbind option_bind].
      match goal with
      | |- context [ ?f rest h ] =>
          destruct (f rest h) as [[kept h2]|] eqn:Hrest; [|done]
      end.
      apply IHrest in Hrest as [Hsub2 Hpr2]. cbn.
      intros [= <- <-]. split; [|done].
      destruct (includes _ _); [by constructor|by apply sublist_cons].
Qed.

(** X16. Filtering only ever takes entries out: the array it returns is a
    sub-array of the one it was given, in the same order, and every node
    object keeps its name, path, size, type and date, with a [children]
    array that is a sub-array of what it was. Nothing is added, renamed or
    reordered, in the result or in the original nodes. *)
Theorem filter_only_removes_entries
    (fuel : nat) (files : list nat) (searchTerm : string) (h : Heap) out h' :
  filteredFiles fuel (Some files) searchTerm h = Some (out, h') →
  sublist out files ∧ pruned h h'.
Proof.
  unfold filteredFiles. case_bool_decide.
  - intros [= <- <-]. split; [done|apply pruned_refl].
  - apply filterNodes_prunes.
Qed.

Lemma filter_only_removes_entries_witness :
  let files := (parse_nodes sample_tree []).1 in
  let h := (parse_nodes sample_tree []).2 in
  ∃ out h', filteredFiles 3 (Some files) "util" h = Some (out, h')
            ∧ sublist out files ∧ pruned h h'.
Proof.
  intros files h.
  destruct (filteredFiles 3 (Some files) "util" h) as [[out h']|] eqn:Hrun;
    [|vm_compute in Hrun; discriminate].
  exists out, h'. split; [done|].
  by apply (filter_only_removes_entries 3 files "util" h).
Defined.
End FrontendShape.
